(** * IAMCredentialsGrpcAsyncIOTransport: a shallow embedding

    Source: google/cloud/iam_credentials_v1/services/iam_credentials/
            transports/grpc_asyncio.py

    The transport is a Python class whose constructor wires a gRPC channel
    and whose properties memoise one call stub per RPC method.  Everything
    it calls (channel creation, SSL credential objects, the base-class
    constructor, [unary_unary]) lives in other modules; those calls are
    recorded in a trace, and their outcome is drawn from a [Library]
    record, so that every statement below holds for every behaviour of
    the collaborators. *)

From stdpp Require Import gmap strings list.
From Stdlib.Strings Require Import Byte Ascii.

Set Default Proof Using "Type".
Local Open Scope string_scope.
Local Open Scope nat_scope.
Local Open Scope list_scope.

(** ** Python values *)

(** The three values the local [credentials] can hold inside [__init__]:
    [None] (the default), [False] (assigned on line 149) or a credentials
    object, identified by its identity. *)
Inductive CredentialsValue :=
| cred_None
| cred_False
| cred_Object (id : nat).

Definition bytes := list byte.

(** What [grpc.ssl_channel_credentials(certificate_chain=, private_key=)]
    and [SslCredentials().ssl_credentials] evaluate to. *)
Inductive ChannelCredentials :=
| ssl_from_pair (certificate_chain private_key : bytes)
| ssl_application_default.

(** A channel is either one handed in by the caller or the [serial]-th
    channel returned by [grpc_helpers_async.create_channel], which
    remembers the target and SSL credentials it was built for. *)
Inductive Channel :=
| Supplied (id : nat)
| Created (serial : nat) (target : string) (ssl : option ChannelCredentials).

Inductive Message :=
| GenerateAccessTokenRequest | GenerateAccessTokenResponse
| GenerateIdTokenRequest | GenerateIdTokenResponse
| SignBlobRequest | SignBlobResponse
| SignJwtRequest | SignJwtResponse.

(** The multi-callable returned by [channel.unary_unary]; every call of
    [unary_unary] returns a new object, hence the serial number. *)
Record Stub := {
  stub_serial : nat;
  stub_channel : Channel;
  stub_route : string;
  request_serializer : Message;
  response_deserializer : Message;
}.

Inductive exn :=
| DuplicateCredentialArgs
| AttributeError (name : string)
| KeyError (key : string)
| LibraryError (code : nat).
    (* raised by a collaborator: the library, or the caller's callback *)

(** Calls that leave the module, with their actual arguments. *)
Inductive Call :=
| call_client_cert_source
| call_ssl_channel_credentials (certificate_chain private_key : bytes)
| call_SslCredentials
| call_create_channel (host : string) (credentials : CredentialsValue)
    (credentials_file : option string) (scopes : list string)
    (quota_project_id : option string)
    (ssl_credentials : option ChannelCredentials)
| call_super_init (host : string) (credentials : CredentialsValue)
    (credentials_file : option string) (scopes : list string)
    (quota_project_id : option string)
| call_unary_unary (channel : Channel) (route : string)
    (request response : Message).

(** ** The store *)

(** [trace] is newest first.  [cls_stubs] is the dictionary created once by
    the class body ([_stubs: Dict[str, Callable] = {}], line 56); [heap]
    holds the dictionaries created by [self._stubs = {}], addressed by
    position. *)
Record World := {
  trace : list Call;
  channels_created : nat;
  stubs_created : nat;
  cls_stubs : gmap string Stub;
  heap : list (gmap string Stub);
}.

(** Instance attributes; [None] is an attribute that has not been set. *)
Record Transport := {
  _grpc_channel : option Channel;
  _stubs : option nat;
  _host : option string;
  _credentials : option CredentialsValue;
}.

Record State := { self : Transport; world : World }.

Definition new_object : Transport :=
  {| _grpc_channel := None; _stubs := None; _host := None;
     _credentials := None |}.

Definition empty_world : World :=
  {| trace := []; channels_created := 0; stubs_created := 0;
     cls_stubs := ∅; heap := [] |}.

(** ** A state and exception monad *)

Definition M (S A : Type) : Type := S → (exn + A) * S.

Definition ret {S A} (a : A) : M S A := λ s, (inr a, s).
Definition raise {S A} (e : exn) : M S A := λ s, (inl e, s).
Definition bind {S A B} (m : M S A) (k : A → M S B) : M S B :=
  λ s, match m s with
       | (inr a, s') => k a s'
       | (inl e, s') => (inl e, s')
       end.
Definition get {S} : M S S := λ s, (inr s, s).
Definition modify {S} (f : S → S) : M S unit := λ s, (inr tt, f s).

Declare Scope py_scope.
Delimit Scope py_scope with py.
Notation "x <- m ;; k" := (bind m (λ x, k))
  (at level 100, m at next level, right associativity) : py_scope.
Notation "m ;; k" := (bind m (λ _, k))
  (at level 100, right associativity) : py_scope.
Local Open Scope py_scope.

(** Run a class-level computation from a method. *)
Definition in_world {A} (m : M World A) : M State A :=
  λ st, match m (world st) with
        | (r, w) => (r, {| self := self st; world := w |})
        end.

Definition set_self (f : Transport → Transport) : M State unit :=
  modify (λ st, {| self := f (self st); world := world st |}).

(** Field updates of the store. *)
Definition push_call (c : Call) (w : World) : World :=
  {| trace := c :: trace w; channels_created := channels_created w;
     stubs_created := stubs_created w; cls_stubs := cls_stubs w;
     heap := heap w |}.

Definition count_channel (w : World) : World :=
  {| trace := trace w; channels_created := S (channels_created w);
     stubs_created := stubs_created w; cls_stubs := cls_stubs w;
     heap := heap w |}.

Definition count_stub (w : World) : World :=
  {| trace := trace w; channels_created := channels_created w;
     stubs_created := S (stubs_created w); cls_stubs := cls_stubs w;
     heap := heap w |}.

Definition with_cls_stubs (d : gmap string Stub) (w : World) : World :=
  {| trace := trace w; channels_created := channels_created w;
     stubs_created := stubs_created w; cls_stubs := d; heap := heap w |}.

Definition with_heap (h : list (gmap string Stub)) (w : World) : World :=
  {| trace := trace w; channels_created := channels_created w;
     stubs_created := stubs_created w; cls_stubs := cls_stubs w;
     heap := h |}.

(** Attribute assignments on the instance. *)
Definition assign_grpc_channel (channel : Channel) (o : Transport)
  : Transport :=
  {| _grpc_channel := Some channel; _stubs := _stubs o; _host := _host o;
     _credentials := _credentials o |}.

Definition assign_stubs (a : nat) (o : Transport) : Transport :=
  {| _grpc_channel := _grpc_channel o; _stubs := Some a; _host := _host o;
     _credentials := _credentials o |}.

Definition assign_base (host : string) (credentials : CredentialsValue)
    (o : Transport) : Transport :=
  {| _grpc_channel := _grpc_channel o; _stubs := _stubs o;
     _host := Some host; _credentials := Some credentials |}.

Definition log (c : Call) : M World unit := modify (push_call c).

Definition next_channel_serial : M World nat :=
  λ w, (inr (channels_created w), count_channel w).

Definition next_stub_serial : M World nat :=
  λ w, (inr (stubs_created w), count_stub w).

(** ** Python truthiness and operators used by the module *)

(** [if s:] for an optional string: [None] and the empty string are falsy. *)
Definition truthy_str (s : option string) : bool :=
  match s with
  | None | Some "" => false
  | Some _ => true
  end.

(** [c in s] for a one-character needle. *)
Fixpoint char_in (c : Ascii.ascii) (s : string) : bool :=
  match s with
  | EmptyString => false
  | String c' s' => Ascii.eqb c c' || char_in c s'
  end.

(** [scopes or AUTH_SCOPES]: [None] and the empty sequence are falsy. *)
Definition scopes_or (scopes : option (list string)) (dflt : list string)
  : list string :=
  match scopes with
  | None | Some [] => dflt
  | Some l => l
  end.

(** ** Collaborators *)

(** What the module takes from elsewhere and the source does not fix:
    the class constant [AUTH_SCOPES] (inherited from base.py), whether a
    call that leaves the module (the caller's certificate callback, the
    SSL credential builders, the channel factory, the base constructor)
    raises an error of its own given the calls made so far, and what the
    base constructor stores on the instance. *)
Record Library := {
  AUTH_SCOPES : list string;
  lib_error : list Call → Call → option nat;
  base_host : string → string;
  base_credentials : CredentialsValue → option string → CredentialsValue;
}.

Definition DEFAULT_HOST : string := "iamcredentials.googleapis.com".

Section Transport.
Context (lib : Library).

(** [credentials] and [credentials_file] both passed. *)
Definition duplicate_credential_args
    (credentials : CredentialsValue) (credentials_file : option string)
  : bool :=
  match credentials, credentials_file with
  | cred_Object _, Some _ => true
  | _, _ => false
  end.

(** Modelled from the spec: [grpc_helpers_async.create_channel] of
    google.api_core is not part of the sources.  Credentials and a
    credentials file are mutually exclusive (duplicate-credential-argument
    misuse); otherwise the library either fails for a reason of its own
    (credential resolution, TLS) or returns a new channel to [host]. *)
Definition grpc_helpers_async_create_channel
    (host : string) (credentials : CredentialsValue)
    (credentials_file : option string) (scopes : list string)
    (quota_project_id : option string)
    (ssl_credentials : option ChannelCredentials) : M World Channel :=
  let c := call_create_channel host credentials credentials_file scopes
             quota_project_id ssl_credentials in
  w <- get;;
  log c;;
  if duplicate_credential_args credentials credentials_file
  then raise DuplicateCredentialArgs
  else match lib_error lib (trace w) c with
       | Some code => raise (LibraryError code)
       | None => n <- next_channel_serial;;
                 ret (Created n host ssl_credentials)
       end.

(** Modelled from the spec: [IAMCredentialsTransport.__init__] (base.py)
    is not part of the sources.  It rejects credentials passed together
    with a credentials file, may fail while resolving credentials, and
    otherwise leaves [_host] and [_credentials] on the instance (both are
    read back on line 202). *)
Definition super_init
    (host : string) (credentials : CredentialsValue)
    (credentials_file : option string) (scopes : list string)
    (quota_project_id : option string) : M State unit :=
  let c := call_super_init host credentials credentials_file scopes
             quota_project_id in
  st <- get;;
  in_world (log c);;
  if duplicate_credential_args credentials credentials_file
  then raise DuplicateCredentialArgs
  else match lib_error lib (trace (world st)) c with
       | Some code => raise (LibraryError code)
       | None =>
           set_self
             (assign_base (base_host lib host)
                (base_credentials lib credentials credentials_file))
       end.

(** A call that leaves the module and either raises an error of its own
    or returns [v]. *)
Definition outside_call {A} (c : Call) (v : A) : M World A :=
  w <- get;;
  log c;;
  match lib_error lib (trace w) c with
  | Some code => raise (LibraryError code)
  | None => ret v
  end.

(** [client_cert_source()]: caller code, which may raise; [f] is the pair
    it returns when it returns. *)
Definition invoke_client_cert_source (f : unit → bytes * bytes)
  : M World (bytes * bytes) :=
  outside_call call_client_cert_source (f tt).

(** [grpc.ssl_channel_credentials(certificate_chain=, private_key=)]. *)
Definition ssl_channel_credentials (certificate_chain private_key : bytes)
  : M World ChannelCredentials :=
  outside_call (call_ssl_channel_credentials certificate_chain private_key)
    (ssl_from_pair certificate_chain private_key).

(** [SslCredentials().ssl_credentials]; raises when the default client
    certificate cannot be loaded (the [MutualTlsChannelError] of the
    [__init__] docstring). *)
Definition SslCredentials_ssl_credentials : M World ChannelCredentials :=
  outside_call call_SslCredentials ssl_application_default.

(** [channel.unary_unary(route, request_serializer=, response_deserializer=)]. *)
Definition unary_unary (channel : Channel) (route : string)
    (request response : Message) : M World Stub :=
  log (call_unary_unary channel route request response);;
  n <- next_stub_serial;;
  ret {| stub_serial := n; stub_channel := channel; stub_route := route;
         request_serializer := request; response_deserializer := response |}.

(** ** The class *)

(** [create_channel] (lines 58-97).  [host = None] is the call that leaves
    the parameter out. *)
Definition create_channel
    (host : option string) (credentials : CredentialsValue)
    (credentials_file : option string) (scopes : option (list string))
    (quota_project_id : option string)
    (ssl_credentials : option ChannelCredentials) : M World Channel :=
  let host := default DEFAULT_HOST host in
  let scopes := scopes_or scopes (AUTH_SCOPES lib) in
  grpc_helpers_async_create_channel host credentials credentials_file scopes
    quota_project_id ssl_credentials.

(** Keyword arguments of [__init__]; [arg_host = None] leaves [host] out,
    the other [None]s are Python's [None]. *)
Record InitArgs := {
  arg_host : option string;
  arg_credentials : CredentialsValue;
  arg_credentials_file : option string;
  arg_scopes : option (list string);
  arg_channel : option Channel;
  arg_api_mtls_endpoint : option string;
  arg_client_cert_source : option (unit → bytes * bytes);
  arg_quota_project_id : option string;
}.

Definition set_grpc_channel (channel : Channel) : M State unit :=
  set_self (assign_grpc_channel channel).

(** [self._stubs = {}]: a new dictionary, bound to the instance. *)
Definition new_stubs : M State unit :=
  modify (λ st,
    let w := world st in
    {| self := assign_stubs (length (heap w)) (self st);
       world := with_heap (heap w ++ [∅]) w |}).

(** Lines 154-158. *)
Definition mtls_host (api_mtls_endpoint : string) : string :=
  if char_in ":"%char api_mtls_endpoint
  then api_mtls_endpoint
  else api_mtls_endpoint +:+ ":443".

(** Lines 162-168. *)
Definition mtls_ssl_credentials
    (client_cert_source : option (unit → bytes * bytes))
  : M World ChannelCredentials :=
  match client_cert_source with
  | Some f =>
      p <- invoke_client_cert_source f;;
      ssl_channel_credentials p.1 p.2
  | None => SslCredentials_ssl_credentials
  end.

(** [__init__] (lines 99-189). *)
Definition __init__ (a : InitArgs) : M State unit :=
  let host := default DEFAULT_HOST (arg_host a) in
  let credentials := arg_credentials a in
  let scopes := arg_scopes a in
  hc <- match arg_channel a with
        | Some channel =>
            set_grpc_channel channel;;
            ret (host, cred_False)
        | None =>
            if truthy_str (arg_api_mtls_endpoint a) then
              let host := mtls_host (default "" (arg_api_mtls_endpoint a)) in
              ssl_credentials <-
                in_world (mtls_ssl_credentials (arg_client_cert_source a));;
              ch <- in_world
                      (create_channel (Some host) credentials
                         (arg_credentials_file a)
                         (Some (scopes_or scopes (AUTH_SCOPES lib)))
                         (arg_quota_project_id a) (Some ssl_credentials));;
              set_grpc_channel ch;;
              ret (host, credentials)
            else ret (host, credentials)
        end;;
  super_init hc.1 hc.2 (arg_credentials_file a)
    (scopes_or scopes (AUTH_SCOPES lib)) (arg_quota_project_id a);;
  new_stubs.

(** Reading an attribute that may not have been set. *)
Definition getattr {A} (name : string) (f : Transport → option A)
  : M State A :=
  λ st, match f (self st) with
        | Some v => (inr v, st)
        | None => (inl (AttributeError name), st)
        end.

(** The [grpc_channel] property (lines 191-206). *)
Definition grpc_channel : M State Channel :=
  st <- get;;
  match _grpc_channel (self st) with
  | None =>
      host <- getattr "_host" _host;;
      credentials <- getattr "_credentials" _credentials;;
      ch <- in_world (create_channel (Some host) credentials None None None
                        None);;
      set_grpc_channel ch
  | Some _ => ret tt
  end;;
  getattr "_grpc_channel" _grpc_channel.

(** [self._stubs]: the instance attribute when set, else the class one. *)
Definition stubs_dict (st : State) : option (gmap string Stub) :=
  match _stubs (self st) with
  | Some a => heap (world st) !! a
  | None => Some (cls_stubs (world st))
  end.

Definition load_stubs : M State (gmap string Stub) :=
  λ st, match stubs_dict st with
        | Some d => (inr d, st)
        | None => (inl (AttributeError "_stubs"), st)
        end.

(** [self._stubs[key] = s]. *)
Definition store_stub (key : string) (s : Stub) : M State unit :=
  modify (λ st,
    let w := world st in
    {| self := self st;
       world :=
         match _stubs (self st) with
         | Some a => with_heap (alter (insert key s) a (heap w)) w
         | None => with_cls_stubs (<[key := s]> (cls_stubs w)) w
         end |}).

(** The body shared by the four stub properties:
    [if key not in self._stubs: self._stubs[key] =
       self.grpc_channel.unary_unary(route, ...)]
    [return self._stubs[key]]. *)
Definition stub_property (key route : string) (request response : Message)
  : M State Stub :=
  d <- load_stubs;;
  match d !! key with
  | None =>
      ch <- grpc_channel;;
      s <- in_world (unary_unary ch route request response);;
      store_stub key s
  | Some _ => ret tt
  end;;
  d <- load_stubs;;
  match d !! key with
  | Some s => ret s
  | None => raise (KeyError key)
  end.

(** Lines 208-236. *)
Definition generate_access_token : M State Stub :=
  stub_property "generate_access_token"
    "/google.iam.credentials.v1.IAMCredentials/GenerateAccessToken"
    GenerateAccessTokenRequest GenerateAccessTokenResponse.

(** Lines 238-265. *)
Definition generate_id_token : M State Stub :=
  stub_property "generate_id_token"
    "/google.iam.credentials.v1.IAMCredentials/GenerateIdToken"
    GenerateIdTokenRequest GenerateIdTokenResponse.

(** Lines 267-292. *)
Definition sign_blob : M State Stub :=
  stub_property "sign_blob"
    "/google.iam.credentials.v1.IAMCredentials/SignBlob"
    SignBlobRequest SignBlobResponse.

(** Lines 294-319. *)
Definition sign_jwt : M State Stub :=
  stub_property "sign_jwt"
    "/google.iam.credentials.v1.IAMCredentials/SignJwt"
    SignJwtRequest SignJwtResponse.

End Transport.

(** ** Lifetimes *)

(** The four RPC methods, with the literals each property uses. *)
Inductive Method :=
| GenerateAccessToken | GenerateIdToken | SignBlob | SignJwt.

#[global] Instance Method_eq_dec : EqDecision Method.
Proof. solve_decision. Defined.

Definition method_key (m : Method) : string :=
  match m with
  | GenerateAccessToken => "generate_access_token"
  | GenerateIdToken => "generate_id_token"
  | SignBlob => "sign_blob"
  | SignJwt => "sign_jwt"
  end.

Definition method_route (m : Method) : string :=
  match m with
  | GenerateAccessToken =>
      "/google.iam.credentials.v1.IAMCredentials/GenerateAccessToken"
  | GenerateIdToken =>
      "/google.iam.credentials.v1.IAMCredentials/GenerateIdToken"
  | SignBlob => "/google.iam.credentials.v1.IAMCredentials/SignBlob"
  | SignJwt => "/google.iam.credentials.v1.IAMCredentials/SignJwt"
  end.

Definition method_request (m : Method) : Message :=
  match m with
  | GenerateAccessToken => GenerateAccessTokenRequest
  | GenerateIdToken => GenerateIdTokenRequest
  | SignBlob => SignBlobRequest
  | SignJwt => SignJwtRequest
  end.

Definition method_response (m : Method) : Message :=
  match m with
  | GenerateAccessToken => GenerateAccessTokenResponse
  | GenerateIdToken => GenerateIdTokenResponse
  | SignBlob => SignBlobResponse
  | SignJwt => SignJwtResponse
  end.

(** The property of the class that serves method [m]. *)
Definition stub_of (lib : Library) (m : Method) : M State Stub :=
  match m with
  | GenerateAccessToken => generate_access_token lib
  | GenerateIdToken => generate_id_token lib
  | SignBlob => sign_blob lib
  | SignJwt => sign_jwt lib
  end.

(** Instantiating the class: a new object, then [__init__]. *)
Definition construct (lib : Library) (a : InitArgs) (w : World)
  : (exn + unit) * State :=
  __init__ lib a {| self := new_object; world := w |}.

(** What a client does with an instance: read one of its properties.  An
    exception raised by a read is the caller's to handle; the instance
    lives on. *)
Inductive Access :=
| read_grpc_channel
| read_stub (m : Method).

Definition access (lib : Library) (x : Access) (st : State) : State :=
  match x with
  | read_grpc_channel => (grpc_channel lib st).2
  | read_stub m => (stub_of lib m st).2
  end.

Fixpoint run (lib : Library) (xs : list Access) (st : State) : State :=
  match xs with
  | [] => st
  | x :: xs => run lib xs (access lib x st)
  end.

(** ** Reading the trace *)

Fixpoint count_calls (p : Call → bool) (t : list Call) : nat :=
  match t with
  | [] => 0
  | c :: t => (if p c then 1 else 0) + count_calls p t
  end.

Definition is_stub_request (route : string) (c : Call) : bool :=
  match c with
  | call_unary_unary _ r _ _ => String.eqb r route
  | _ => false
  end.

Definition is_cert_source_call (c : Call) : bool :=
  match c with
  | call_client_cert_source => true
  | _ => false
  end.

(** Hosts handed to the channel factory, newest first. *)
Fixpoint channel_hosts (t : list Call) : list string :=
  match t with
  | [] => []
  | call_create_channel h _ _ _ _ _ :: t => h :: channel_hosts t
  | _ :: t => channel_hosts t
  end.

(** Hosts handed to the base constructor, newest first. *)
Fixpoint base_hosts (t : list Call) : list string :=
  match t with
  | [] => []
  | call_super_init h _ _ _ _ :: t => h :: base_hosts t
  | _ :: t => base_hosts t
  end.

(** ** Outcomes, written out

    The values the constructor and the properties are shown to compute,
    named so that the statements below stay readable. *)

Section Outcomes.
Context (lib : Library).

Definition lazy_call (h : string) (c : CredentialsValue) : Call :=
  call_create_channel h c None (AUTH_SCOPES lib) None None.

Definition new_stub (w : World) (ch : Channel) (route : string)
    (rq rs : Message) : Stub :=
  {| stub_serial := stubs_created w; stub_channel := ch; stub_route := route;
     request_serializer := rq; response_deserializer := rs |}.

Definition base_call (a : InitArgs) (host : string)
    (credentials : CredentialsValue) : Call :=
  call_super_init host credentials (arg_credentials_file a)
    (scopes_or (arg_scopes a) (AUTH_SCOPES lib)) (arg_quota_project_id a).

Definition built (a : InitArgs) (host : string)
    (credentials : CredentialsValue) (o : Transport) (w : World) : State :=
  {| self :=
       assign_stubs (length (heap w))
         (assign_base (base_host lib host)
            (base_credentials lib credentials (arg_credentials_file a)) o);
     world :=
       with_heap (heap w ++ [∅]) (push_call (base_call a host credentials) w) |}.

Definition base_outcome (a : InitArgs) (host : string)
    (credentials : CredentialsValue) (o : Transport) (w : World)
  : (exn + unit) * State :=
  let stopped :=
    {| self := o; world := push_call (base_call a host credentials) w |} in
  if duplicate_credential_args credentials (arg_credentials_file a)
  then (inl DuplicateCredentialArgs, stopped)
  else match lib_error lib (trace w) (base_call a host credentials) with
       | Some code => (inl (LibraryError code), stopped)
       | None => (inr (), built a host credentials o w)
       end.

Definition ssl_value (src : option (unit → bytes * bytes))
  : ChannelCredentials :=
  match src with
  | Some f => ssl_from_pair (f ()).1 (f ()).2
  | None => ssl_application_default
  end.

Definition ssl_calls (src : option (unit → bytes * bytes)) : list Call :=
  match src with
  | Some f =>
      [call_ssl_channel_credentials (f ()).1 (f ()).2;
       call_client_cert_source]
  | None => [call_SslCredentials]
  end.

Definition push_calls (cs : list Call) (w : World) : World :=
  {| trace := cs ++ trace w; channels_created := channels_created w;
     stubs_created := stubs_created w; cls_stubs := cls_stubs w;
     heap := heap w |}.

(** The first failure of the SSL step (lines 162-168) started in [w],
    with the calls made up to it; [None] when the step returns. *)
Definition ssl_step_failure (src : option (unit → bytes * bytes))
    (w : World) : option (nat * list Call) :=
  match src with
  | Some f =>
      match lib_error lib (trace w) call_client_cert_source with
      | Some code => Some (code, [call_client_cert_source])
      | None =>
          let c := call_ssl_channel_credentials (f ()).1 (f ()).2 in
          match lib_error lib (call_client_cert_source :: trace w) c with
          | Some code => Some (code, [c; call_client_cert_source])
          | None => None
          end
      end
  | None =>
      match lib_error lib (trace w) call_SslCredentials with
      | Some code => Some (code, [call_SslCredentials])
      | None => None
      end
  end.

Definition mtls_call (a : InitArgs) (ep : string) : Call :=
  call_create_channel (mtls_host ep) (arg_credentials a)
    (arg_credentials_file a) (scopes_or (arg_scopes a) (AUTH_SCOPES lib))
    (arg_quota_project_id a) (Some (ssl_value (arg_client_cert_source a))).

(** The cache entry of the instance under [key]. *)
Definition cached (st : State) (key : string) : option Stub :=
  d ← stubs_dict st; d !! key.

End Outcomes.

(** [unary_unary] calls for the route of [m] in a trace. *)
Definition requests (m : Method) (t : list Call) : nat :=
  count_calls (is_stub_request (method_route m)) t.

(** ** The invariant of a constructed instance

    [Live a w0 st]: [st] is an instance built by [construct _ a w0] and
    then only read.  It owns a dictionary allocated after [w0]; a method
    is in it exactly when its one [unary_unary] call has been made, and the
    entry is the stub that call returned on the instance's channel. *)

Definition entry_ok (w0 : World) (st : State) (m : Method)
    (e : option Stub) : Prop :=
  match e with
  | None => requests m (trace (world st)) = requests m (trace w0)
  | Some s =>
      requests m (trace (world st)) = S (requests m (trace w0)) ∧
      stub_route s = method_route m ∧
      request_serializer s = method_request m ∧
      response_deserializer s = method_response m ∧
      _grpc_channel (self st) = Some (stub_channel s) ∧
      stubs_created w0 ≤ stub_serial s < stubs_created (world st) ∧
      call_unary_unary (stub_channel s) (method_route m) (method_request m)
        (method_response m) ∈ trace (world st)
  end.

Definition channel_ok (a : InitArgs) (w0 : World) (st : State) : Prop :=
  match _grpc_channel (self st) with
  | None =>
      arg_channel a = None ∧
      channels_created (world st) = channels_created w0
  | Some ch =>
      (arg_channel a = Some ch ∧
       channels_created (world st) = channels_created w0) ∨
      (arg_channel a = None ∧
       channels_created (world st) = S (channels_created w0) ∧
       ∃ h ssl, ch = Created (channels_created w0) h ssl)
  end.

Record Live (a : InitArgs) (w0 : World) (st : State) : Prop := {
  live_host : is_Some (_host (self st));
  live_credentials : is_Some (_credentials (self st));
  live_channel : channel_ok a w0 st;
  live_stubs :
    ∃ addr d,
      _stubs (self st) = Some addr ∧
      (length (heap w0) ≤ addr)%nat ∧
      heap (world st) !! addr = Some d ∧
      ∀ m, entry_ok w0 st m (d !! method_key m);
  live_counter : (stubs_created w0 ≤ stubs_created (world st))%nat;
}.

(** Calls that are handed the credentials arguments. *)
Definition takes_credentials (c : Call) : bool :=
  match c with
  | call_create_channel _ _ _ _ _ _ | call_super_init _ _ _ _ _ => true
  | _ => false
  end.

Definition call_credentials (c : Call)
  : option (CredentialsValue * option string) :=
  match c with
  | call_create_channel _ cr f _ _ _ | call_super_init _ cr f _ _ =>
      Some (cr, f)
  | _ => None
  end.

(** Arguments that differ from [a] only in [host]. *)
Definition set_host (h : option string) (a : InitArgs) : InitArgs :=
  {| arg_host := h; arg_credentials := arg_credentials a;
     arg_credentials_file := arg_credentials_file a;
     arg_scopes := arg_scopes a; arg_channel := arg_channel a;
     arg_api_mtls_endpoint := arg_api_mtls_endpoint a;
     arg_client_cert_source := arg_client_cert_source a;
     arg_quota_project_id := arg_quota_project_id a |}.

(** Arguments that differ from [a] only in [credentials],
    [api_mtls_endpoint] and [client_cert_source]. *)
Definition set_ignored (credentials : CredentialsValue)
    (api_mtls_endpoint : option string)
    (client_cert_source : option (unit → bytes * bytes)) (a : InitArgs)
  : InitArgs :=
  {| arg_host := arg_host a; arg_credentials := credentials;
     arg_credentials_file := arg_credentials_file a;
     arg_scopes := arg_scopes a; arg_channel := arg_channel a;
     arg_api_mtls_endpoint := api_mtls_endpoint;
     arg_client_cert_source := client_cert_source;
     arg_quota_project_id := arg_quota_project_id a |}.

(** ** Two instances in one store *)

Inductive Side := first_instance | second_instance.

(** A read of a property of one of two instances sharing the store. *)
Definition access2 (lib : Library) (z : Side * Access)
    (p : Transport * Transport * World) : Transport * Transport * World :=
  let '(o1, o2, w) := p in
  match z.1 with
  | first_instance =>
      let st := access lib z.2 {| self := o1; world := w |} in
      (self st, o2, world st)
  | second_instance =>
      let st := access lib z.2 {| self := o2; world := w |} in
      (o1, self st, world st)
  end.

Fixpoint run2 (lib : Library) (zs : list (Side * Access))
    (p : Transport * Transport * World) : Transport * Transport * World :=
  match zs with
  | [] => p
  | z :: zs => run2 lib zs (access2 lib z p)
  end.

(** The instance owns a dictionary whose stubs were all handed out by the
    store. *)
Definition owns (o : Transport) (w : World) (addr : nat)
    (d : gmap string Stub) : Prop :=
  _stubs o = Some addr ∧ heap w !! addr = Some d ∧
  ∀ k s, d !! k = Some s → stub_serial s < stubs_created w.

(** Two instances with separate dictionaries and no stub in common. *)
Definition separate (p : Transport * Transport * World) : Prop :=
  let '(o1, o2, w) := p in
  ∃ a1 d1 a2 d2,
    owns o1 w a1 d1 ∧ owns o2 w a2 d2 ∧ a1 ≠ a2 ∧
    ∀ k1 k2 s1 s2, d1 !! k1 = Some s1 → d2 !! k2 = Some s2 →
                   stub_serial s1 ≠ stub_serial s2.

(** ** More readings of the trace *)

(** The calls a property read can make: a channel request with nothing
    but host and credentials (line 201), or a stub request. *)
Definition is_read_call (c : Call) : bool :=
  match c with
  | call_create_channel _ _ None _ None None => true
  | call_unary_unary _ _ _ _ => true
  | _ => false
  end.

Definition is_base_call (c : Call) : bool :=
  match c with
  | call_super_init _ _ _ _ _ => true
  | _ => false
  end.

(** Credentials file, scopes and quota project handed to a call. *)
Definition call_forwarded (c : Call)
  : option (option string * list string * option string) :=
  match c with
  | call_create_channel _ _ f s q _ | call_super_init _ _ f s q =>
      Some (f, s, q)
  | _ => None
  end.

(** ** Sample values *)

Definition sample_library : Library :=
  {| AUTH_SCOPES := ["https://www.googleapis.com/auth/cloud-platform"];
     lib_error := λ _ _, None;
     base_host := λ h, h;
     base_credentials := λ c _, c |}.

Definition no_args : InitArgs :=
  {| arg_host := None; arg_credentials := cred_None;
     arg_credentials_file := None; arg_scopes := None; arg_channel := None;
     arg_api_mtls_endpoint := None; arg_client_cert_source := None;
     arg_quota_project_id := None |}.

Definition mtls_args : InitArgs :=
  {| arg_host := None; arg_credentials := cred_None;
     arg_credentials_file := None; arg_scopes := None; arg_channel := None;
     arg_api_mtls_endpoint := Some "iamcredentials.mtls.googleapis.com";
     arg_client_cert_source := None; arg_quota_project_id := None |}.

Definition sample_cert_source (_ : unit) : bytes * bytes :=
  ([x2d; x43], [x2d; x4b])%byte.

Definition mtls_cert_args : InitArgs :=
  {| arg_host := Some "ignored.example.com"; arg_credentials := cred_None;
     arg_credentials_file := None; arg_scopes := None; arg_channel := None;
     arg_api_mtls_endpoint := Some "iamcredentials.mtls.googleapis.com:8443";
     arg_client_cert_source := Some sample_cert_source;
     arg_quota_project_id := None |}.

Definition duplicate_args : InitArgs :=
  {| arg_host := None; arg_credentials := cred_Object 1;
     arg_credentials_file := Some "key.json"; arg_scopes := None;
     arg_channel := None; arg_api_mtls_endpoint := None;
     arg_client_cert_source := None; arg_quota_project_id := None |}.

Definition channel_args : InitArgs :=
  {| arg_host := None; arg_credentials := cred_Object 1;
     arg_credentials_file := None; arg_scopes := None;
     arg_channel := Some (Supplied 7);
     arg_api_mtls_endpoint := Some "iamcredentials.mtls.googleapis.com";
     arg_client_cert_source := Some sample_cert_source;
     arg_quota_project_id := None |}.

(** A library whose channel factory always fails. *)
Definition failing_library : Library :=
  {| AUTH_SCOPES := ["https://www.googleapis.com/auth/cloud-platform"];
     lib_error := λ _ c,
       match c with
       | call_create_channel _ _ _ _ _ _ => Some 14
       | _ => None
       end;
     base_host := λ h, h;
     base_credentials := λ c _, c |}.

(** An object on which only the base constructor has run. *)
Definition half_built : Transport :=
  assign_base DEFAULT_HOST cred_None new_object.

(** A library in which [SslCredentials().ssl_credentials] raises. *)
Definition ssl_failing_library : Library :=
  {| AUTH_SCOPES := ["https://www.googleapis.com/auth/cloud-platform"];
     lib_error := λ _ c,
       match c with
       | call_SslCredentials => Some 2
       | _ => None
       end;
     base_host := λ h, h;
     base_credentials := λ c _, c |}.

Definition empty_endpoint_args : InitArgs :=
  {| arg_host := Some "host.example.com"; arg_credentials := cred_None;
     arg_credentials_file := None; arg_scopes := None; arg_channel := None;
     arg_api_mtls_endpoint := Some "";
     arg_client_cert_source := Some sample_cert_source;
     arg_quota_project_id := None |}.

Definition duplicate_mtls_args : InitArgs :=
  {| arg_host := None; arg_credentials := cred_Object 1;
     arg_credentials_file := Some "key.json"; arg_scopes := None;
     arg_channel := None;
     arg_api_mtls_endpoint := Some "iamcredentials.mtls.googleapis.com";
     arg_client_cert_source := None; arg_quota_project_id := None |}.

(** * Properties *)

Section Facts.
Context (lib : Library).

Lemma stub_of_eq m :
  stub_of lib m =
  stub_property lib (method_key m) (method_route m) (method_request m)
    (method_response m).
Proof. by destruct m. Qed.

Lemma grpc_channel_stored st ch :
  _grpc_channel (self st) = Some ch → grpc_channel lib st = (inr ch, st).
Proof.
  intros H. destruct st as [[gc sd ho cr] w]. simpl in H. subst.
  reflexivity.
Qed.

Lemma grpc_channel_lazy st h c :
  _grpc_channel (self st) = None →
  _host (self st) = Some h →
  _credentials (self st) = Some c →
  grpc_channel lib st =
  match lib_error lib (trace (world st)) (lazy_call lib h c) with
  | Some code =>
      (inl (LibraryError code),
       {| self := self st; world := push_call (lazy_call lib h c) (world st) |})
  | None =>
      let ch := Created (channels_created (world st)) h None in
      (inr ch,
       {| self := assign_grpc_channel ch (self st);
          world := count_channel (push_call (lazy_call lib h c) (world st)) |})
  end.
Proof.
  intros Hch Hh Hc. destruct st as [[gc sd ho cr] w]. simpl in *. subst.
  unfold grpc_channel, bind, get, ret, getattr, in_world, create_channel,
    grpc_helpers_async_create_channel, bind, get, log, modify. simpl.
  replace (duplicate_credential_args c None) with false by (by destruct c).
  unfold lazy_call. simpl.
  destruct (lib_error _ _ _); reflexivity.
Qed.

Lemma stub_property_hit key route rq rs st d s :
  stubs_dict st = Some d → d !! key = Some s →
  stub_property lib key route rq rs st = (inr s, st).
Proof.
  intros Hd Hs. unfold stub_property, bind, load_stubs, ret.
  rewrite Hd, Hs, Hd, Hs. done.
Qed.

Lemma grpc_channel_frame st r st1 :
  grpc_channel lib st = (r, st1) →
  _stubs (self st1) = _stubs (self st) ∧
  _host (self st1) = _host (self st) ∧
  _credentials (self st1) = _credentials (self st) ∧
  heap (world st1) = heap (world st) ∧
  cls_stubs (world st1) = cls_stubs (world st) ∧
  stubs_created (world st1) = stubs_created (world st).
Proof.
  destruct st as [[gc sd ho cr] w].
  destruct gc as [ch|].
  - rewrite (grpc_channel_stored _ ch) by done. by intros [= <- <-].
  - destruct ho as [h|], cr as [c|];
      try (by intros [= <- <-]).
    rewrite (grpc_channel_lazy _ h c) by done.
    destruct (lib_error _ _ _); by intros [= <- <-].
Qed.

Lemma stub_property_miss key route rq rs st a d :
  _stubs (self st) = Some a → heap (world st) !! a = Some d →
  d !! key = None →
  stub_property lib key route rq rs st =
  match grpc_channel lib st with
  | (inl e, st1) => (inl e, st1)
  | (inr ch, st1) =>
      let s := new_stub (world st1) ch route rq rs in
      (inr s,
       {| self := self st1;
          world := with_heap (alter (insert key s) a (heap (world st1)))
                     (count_stub
                        (push_call (call_unary_unary ch route rq rs)
                           (world st1))) |})
  end.
Proof.
  intros Ha Hd Hk.
  assert (Hsd : stubs_dict st = Some d) by (unfold stubs_dict; by rewrite Ha).
  unfold stub_property, bind at 1. unfold load_stubs at 1. rewrite Hsd, Hk.
  unfold bind at 1. unfold bind at 1.
  destruct (grpc_channel lib st) as [[e|ch] st1] eqn:E; [done|].
  apply grpc_channel_frame in E as (Ha1 & _ & _ & Hh1 & _).
  unfold in_world, unary_unary, bind, log, modify, next_stub_serial, ret,
    store_stub, load_stubs, stubs_dict. simpl.
  rewrite Ha1, Ha. simpl. rewrite list_lookup_alter, Hh1, Hd. simpl.
  case_decide; [|done]. simpl. by rewrite lookup_insert_eq.
Qed.

Lemma init_tail a host credentials o w :
  (super_init lib host credentials (arg_credentials_file a)
     (scopes_or (arg_scopes a) (AUTH_SCOPES lib)) (arg_quota_project_id a);;
   new_stubs) {| self := o; world := w |}
  = base_outcome lib a host credentials o w.
Proof.
  unfold base_outcome, base_call, super_init, bind, get, in_world, log,
    modify, new_stubs, set_self, modify, raise. simpl.
  destruct (duplicate_credential_args _ _); [done|].
  by destruct (lib_error _ _ _).
Qed.

Lemma construct_supplied a w ch :
  arg_channel a = Some ch →
  construct lib a w =
  base_outcome lib a (default DEFAULT_HOST (arg_host a)) cred_False
    (assign_grpc_channel ch new_object) w.
Proof.
  intros Hch. rewrite <- init_tail.
  unfold construct, __init__. rewrite Hch. reflexivity.
Qed.

Lemma construct_plain a w :
  arg_channel a = None → truthy_str (arg_api_mtls_endpoint a) = false →
  construct lib a w =
  base_outcome lib a (default DEFAULT_HOST (arg_host a)) (arg_credentials a)
    new_object w.
Proof.
  intros Hch Hep. rewrite <- init_tail.
  unfold construct, __init__. rewrite Hch, Hep. reflexivity.
Qed.

Lemma mtls_ssl_credentials_eq src w :
  mtls_ssl_credentials lib src w =
  match ssl_step_failure lib src w with
  | Some (code, made) => (inl (LibraryError code), push_calls made w)
  | None => (inr (ssl_value src), push_calls (ssl_calls src) w)
  end.
Proof.
  destruct w as [t cc sc cl hp]. destruct src as [f|]; simpl.
  - unfold mtls_ssl_credentials, invoke_client_cert_source,
      ssl_channel_credentials, outside_call, bind, get, log, modify. simpl.
    destruct (lib_error lib t call_client_cert_source); [done|]. simpl.
    by destruct (lib_error lib (call_client_cert_source :: t) _).
  - unfold mtls_ssl_credentials, SslCredentials_ssl_credentials,
      outside_call, bind, get, log, modify. simpl.
    by destruct (lib_error lib t call_SslCredentials).
Qed.

(** The step leaves a prefix of its calls behind when it fails. *)
Lemma ssl_step_failure_made src w code made :
  ssl_step_failure lib src w = Some (code, made) →
  lib_error lib (tl made ++ trace w) (hd call_SslCredentials made)
    = Some code ∧
  made ≠ [] ∧
  channel_hosts made = [] ∧ base_hosts made = [] ∧
  Forall (λ c, call_forwarded c = None) made ∧
  count_calls is_cert_source_call made ≤ 1 ∧
  (is_Some src → count_calls is_cert_source_call made = 1).
Proof.
  assert (Hall : ∀ c c' : Call,
            call_forwarded c = None → call_forwarded c' = None →
            Forall (λ c, call_forwarded c = None) [c; c']).
  { intros c c' ? ?. by repeat constructor. }
  destruct src as [f|]; simpl.
  - destruct (lib_error lib (trace w) call_client_cert_source) eqn:E1.
    + intros [= <- <-]. simpl. split_and!; try done. by constructor.
    + destruct (lib_error lib (call_client_cert_source :: trace w) _) eqn:E2;
        [|done].
      intros [= <- <-]. simpl. split_and!; try done. by apply Hall.
  - destruct (lib_error lib (trace w) call_SslCredentials) eqn:E1; [|done].
    intros [= <- <-]. simpl. split_and!; try done; [by constructor|lia].
Qed.

Lemma scopes_or_idem s d : scopes_or (Some (scopes_or s d)) d = scopes_or s d.
Proof. destruct s as [[|x l]|], d; done. Qed.

Lemma truthy_str_Some o : truthy_str o = true ↔ ∃ s, o = Some s ∧ s ≠ "".
Proof.
  destruct o as [[|c s]|]; simpl; split; try done.
  - by intros (s & [= <-] & ?).
  - intros _. by eexists.
  - by intros (s & ? & ?).
Qed.

Lemma library_create_channel_eq host credentials file scopes quota ssl w :
  grpc_helpers_async_create_channel lib host credentials file scopes quota
    ssl w =
  let c := call_create_channel host credentials file scopes quota ssl in
  if duplicate_credential_args credentials file
  then (inl DuplicateCredentialArgs, push_call c w)
  else match lib_error lib (trace w) c with
       | Some code => (inl (LibraryError code), push_call c w)
       | None =>
           (inr (Created (channels_created w) host ssl),
            count_channel (push_call c w))
       end.
Proof.
  unfold grpc_helpers_async_create_channel, bind, get, log, modify. simpl.
  destruct (duplicate_credential_args _ _); [done|].
  by destruct (lib_error _ _ _).
Qed.

Lemma construct_mtls a w ep :
  arg_channel a = None → arg_api_mtls_endpoint a = Some ep → ep ≠ "" →
  let w1 := push_calls (ssl_calls (arg_client_cert_source a)) w in
  let stopped :=
    {| self := new_object; world := push_call (mtls_call lib a ep) w1 |} in
  construct lib a w =
  match ssl_step_failure lib (arg_client_cert_source a) w with
  | Some (code, made) =>
      (inl (LibraryError code),
       {| self := new_object; world := push_calls made w |})
  | None =>
  if duplicate_credential_args (arg_credentials a) (arg_credentials_file a)
  then (inl DuplicateCredentialArgs, stopped)
  else match lib_error lib (trace w1) (mtls_call lib a ep) with
       | Some code => (inl (LibraryError code), stopped)
       | None =>
           base_outcome lib a (mtls_host ep) (arg_credentials a)
             (assign_grpc_channel
                (Created (channels_created w) (mtls_host ep)
                   (Some (ssl_value (arg_client_cert_source a))))
                new_object)
             (count_channel (push_call (mtls_call lib a ep) w1))
       end
  end.
Proof.
  intros Hch Hep Hne w1 stopped.
  assert (Ht : truthy_str (arg_api_mtls_endpoint a) = true).
  { apply truthy_str_Some. eauto. }
  unfold construct, __init__. rewrite Hch, Ht, Hep. simpl default.
  unfold bind at 1. unfold bind at 1. unfold in_world at 1.
  rewrite mtls_ssl_credentials_eq. cbn [world self].
  destruct (ssl_step_failure lib (arg_client_cert_source a) w)
    as [[code made]|]; [done|]. simpl.
  unfold bind at 1. unfold in_world, create_channel. simpl default.
  rewrite scopes_or_idem, library_create_channel_eq.
  fold (mtls_call lib a ep). cbn zeta. cbn [world self].
  destruct (duplicate_credential_args _ _) eqn:Hd; [done|].
  subst w1 stopped.
  destruct (lib_error lib _ (mtls_call lib a ep)) eqn:He; [done|].
  rewrite <- init_tail. reflexivity.
Qed.

End Facts.

(** ** Lifetime of an instance *)

Section Lifetime.
Context (lib : Library).

Lemma route_eqb m m' :
  String.eqb (method_route m') (method_route m) = bool_decide (m' = m).
Proof. destruct m, m'; vm_compute; reflexivity. Qed.

Lemma key_inj m m' : method_key m = method_key m' → m = m'.
Proof. destruct m, m'; simpl; congruence. Qed.

Lemma requests_push m c t :
  requests m (c :: t) =
  ((if is_stub_request (method_route m) c then 1 else 0) + requests m t)%nat.
Proof. reflexivity. Qed.

Lemma construct_live a w st1 :
  construct lib a w = (inr (), st1) → Live a w st1.
Proof.
  destruct (arg_channel a) as [ch|] eqn:Hch.
  - rewrite (construct_supplied _ _ _ ch) by done. unfold base_outcome.
    destruct (duplicate_credential_args _ _); [done|].
    destruct (lib_error _ _ _); [done|]. intros [= <-].
    split; simpl; eauto.
    + unfold channel_ok. simpl. by left.
    + eexists _, ∅. split_and!; [done|done|..].
      * by rewrite lookup_app_r, Nat.sub_diag by done.
      * intros m. rewrite lookup_empty. done.
  - destruct (truthy_str (arg_api_mtls_endpoint a)) eqn:Hep.
    + apply truthy_str_Some in Hep as (ep & Hep & Hne).
      rewrite (construct_mtls _ _ _ ep) by done. cbn zeta.
      destruct (ssl_step_failure _ _ _) as [[? ?]|]; [done|].
      destruct (duplicate_credential_args _ _); [done|].
      destruct (lib_error _ _ _); [done|]. unfold base_outcome.
      destruct (duplicate_credential_args _ _); [done|].
      destruct (lib_error _ _ _); [done|]. intros [= <-].
      split; simpl; eauto.
      * unfold channel_ok. simpl. right. eauto.
      * eexists _, ∅. split_and!; [done|done|..].
        -- by rewrite lookup_app_r, Nat.sub_diag by done.
        -- intros m. rewrite lookup_empty. simpl.
           rewrite !requests_push. simpl. unfold requests.
           destruct (arg_client_cert_source a); done.
    + rewrite construct_plain by done. unfold base_outcome.
      destruct (duplicate_credential_args _ _); [done|].
      destruct (lib_error _ _ _); [done|]. intros [= <-].
      split; simpl; eauto.
      * unfold channel_ok. simpl. done.
      * eexists _, ∅. split_and!; [done|done|..].
        -- by rewrite lookup_app_r, Nat.sub_diag by done.
        -- intros m. rewrite lookup_empty. done.
Qed.

(** Reading [grpc_channel] keeps the invariant, touches neither the cache
    nor the stub counter, and asks for no stub. *)
Lemma grpc_channel_live a w st r st1 :
  Live a w st → grpc_channel lib st = (r, st1) →
  Live a w st1 ∧
  (∀ ch, r = inr ch → _grpc_channel (self st1) = Some ch) ∧
  (∀ ch, _grpc_channel (self st) = Some ch → r = inr ch ∧ st1 = st).
Proof.
  intros HL E.
  pose proof HL as
    [[h Hh] [c Hc] Hchan (addr & d & Hs & Hfresh & Hd & Hent) Hcnt].
  destruct (_grpc_channel (self st)) as [ch|] eqn:Hg.
  - rewrite (grpc_channel_stored _ _ ch) in E by done.
    injection E as <- <-. split_and!.
    + done.
    + by intros ? [= <-].
    + by intros ? [= <-].
  - rewrite (grpc_channel_lazy _ _ h c) in E by done.
    assert (Hnone : ∀ m, d !! method_key m = None).
    { intros m. specialize (Hent m).
      destruct (d !! method_key m) as [s|]; [|done].
      destruct Hent as (_ & _ & _ & _ & Hg' & _). congruence. }
    unfold channel_ok in Hchan. rewrite Hg in Hchan.
    destruct Hchan as [Ha Hn].
    destruct (lib_error _ _ _); injection E as <- <-.
    + split_and!; [|done|done].
      split; simpl; eauto.
      * unfold channel_ok. simpl. by rewrite Hg.
      * exists addr, d. split_and!; try done.
        intros m. rewrite Hnone. simpl.
        specialize (Hent m). rewrite Hnone in Hent. done.
    + split_and!; [|by intros ? [= <-]|done].
      split; simpl; eauto.
      * unfold channel_ok. simpl. right. rewrite Hn. eauto.
      * exists addr, d. split_and!; try done.
        intros m. rewrite Hnone. simpl.
        specialize (Hent m). rewrite Hnone in Hent. done.
Qed.

Lemma cached_own st addr d key :
  _stubs (self st) = Some addr → heap (world st) !! addr = Some d →
  cached st key = d !! key.
Proof. intros Hs Hd. unfold cached, stubs_dict. by rewrite Hs, Hd. Qed.

Lemma cached_frame st st1 key :
  _stubs (self st1) = _stubs (self st) →
  heap (world st1) = heap (world st) →
  cls_stubs (world st1) = cls_stubs (world st) →
  cached st1 key = cached st key.
Proof. intros Hs Hh Hc. unfold cached, stubs_dict. by rewrite Hs, Hh, Hc. Qed.

(** Reading a stub property keeps the invariant; a hit changes nothing,
    a successful read leaves the returned stub in the cache, and no entry
    is ever replaced. *)
Lemma stub_of_live a w st m r st1 :
  Live a w st → stub_of lib m st = (r, st1) →
  Live a w st1 ∧
  (∀ s, r = inr s → cached st1 (method_key m) = Some s) ∧
  (∀ s, cached st (method_key m) = Some s → r = inr s ∧ st1 = st) ∧
  (∀ k s, cached st k = Some s → cached st1 k = Some s).
Proof.
  intros HL E. rewrite stub_of_eq in E.
  pose proof HL as [_ _ _ (addr & d & Hs & Hfresh & Hd & Hent) _].
  destruct (d !! method_key m) as [s|] eqn:Hk.
  - rewrite (stub_property_hit _ _ _ _ _ _ d s) in E;
      [|by unfold stubs_dict; rewrite Hs|done].
    injection E as <- <-. split_and!; [done|..].
    + intros ? [= <-]. by rewrite (cached_own _ addr d).
    + intros s'. rewrite (cached_own _ addr d), Hk by done. by intros [= <-].
    + done.
  - rewrite (stub_property_miss _ _ _ _ _ _ addr d) in E by done.
    destruct (grpc_channel lib st) as [[e|ch] st'] eqn:G.
    + injection E as <- <-.
      destruct (grpc_channel_live a w _ _ _ HL G) as (HL' & _ & _).
      apply grpc_channel_frame in G as (Hs' & _ & _ & Hh' & Hc' & _).
      split_and!; [done|done|..].
      * intros s. by rewrite (cached_own _ addr d), Hk.
      * intros k s. by rewrite (cached_frame st' st).
    + cbn zeta in E. injection E as <- <-.
      destruct (grpc_channel_live a w _ _ _ HL G) as (HL' & Hch & _).
      specialize (Hch ch eq_refl).
      apply grpc_channel_frame in G as (Hs' & _ & _ & Hh' & Hc' & _).
      destruct HL' as [Hho Hcr Hchan (addr' & d' & Hs1 & _ & Hd1 & Hent') Hcnt].
      assert (addr' = addr) as -> by congruence.
      assert (d' = d) as -> by congruence.
      assert (Hlk : alter (insert (method_key m)
                      (new_stub (world st') ch (method_route m)
                         (method_request m) (method_response m)))
                      addr (heap (world st')) !! addr
                    = Some (<[method_key m :=
                         new_stub (world st') ch (method_route m)
                           (method_request m) (method_response m)]> d)).
      { rewrite list_lookup_alter. case_decide; [|done]. by rewrite Hd1. }
      split_and!.
      * split; simpl; try done.
        -- exists addr, (<[method_key m :=
                         new_stub (world st') ch (method_route m)
                           (method_request m) (method_response m)]> d).
           split_and!; try done.
           intros m0. destruct (decide (m0 = m)) as [->|Hne].
           ++ rewrite lookup_insert_eq. simpl.
              rewrite requests_push. simpl. rewrite String.eqb_refl.
              specialize (Hent' m). rewrite Hk in Hent'. simpl in Hent'.
              split_and!; try done; [by rewrite Hent'|lia|by left].
           ++ rewrite lookup_insert_ne by (intros ?%key_inj; done).
              specialize (Hent' m0).
              destruct (d !! method_key m0) as [s0|]; simpl in *.
              ** rewrite requests_push. simpl. rewrite route_eqb.
                 rewrite bool_decide_eq_false_2 by done.
                 destruct Hent' as (? & ? & ? & ? & ? & ? & ?).
                 split_and!; try done; [lia|lia|by right].
              ** rewrite requests_push. simpl. rewrite route_eqb.
                 by rewrite bool_decide_eq_false_2 by done.
        -- lia.
      * intros ? [= <-]. erewrite cached_own; [|done|exact Hlk].
        by rewrite lookup_insert_eq.
      * intros s. by rewrite (cached_own _ addr d), Hk.
      * intros k s. rewrite (cached_own _ addr d) by done. intros Hks.
        erewrite cached_own; [|done|exact Hlk].
        rewrite lookup_insert_ne; [done|]. intros <-. congruence.
Qed.
End Lifetime.

(** ** Sequences of reads *)

Section Runs.
Context (lib : Library).

Lemma access_live a w x st : Live a w st → Live a w (access lib x st).
Proof.
  intros HL. destruct x as [|m]; simpl.
  - destruct (grpc_channel lib st) as [r st1] eqn:E.
    by destruct (grpc_channel_live lib a w _ _ _ HL E).
  - destruct (stub_of lib m st) as [r st1] eqn:E.
    by destruct (stub_of_live lib a w _ _ _ _ HL E).
Qed.

Lemma run_live a w xs st : Live a w st → Live a w (run lib xs st).
Proof.
  revert st. induction xs as [|x xs IH]; intros st HL; [done|].
  simpl. by apply IH, access_live.
Qed.

Lemma access_cached a w x st k s :
  Live a w st → cached st k = Some s → cached (access lib x st) k = Some s.
Proof.
  intros HL Hk. destruct x as [|m]; simpl.
  - destruct (grpc_channel lib st) as [r st1] eqn:E.
    apply grpc_channel_frame in E as (? & _ & _ & ? & ? & _).
    simpl. by rewrite (cached_frame st st1).
  - destruct (stub_of lib m st) as [r st1] eqn:E.
    destruct (stub_of_live lib a w _ _ _ _ HL E) as (_ & _ & _ & Hmono).
    by apply Hmono.
Qed.

Lemma run_cached a w xs st k s :
  Live a w st → cached st k = Some s → cached (run lib xs st) k = Some s.
Proof.
  revert st. induction xs as [|x xs IH]; intros st HL Hk; [done|].
  simpl. apply IH; [by apply access_live|by eapply access_cached].
Qed.

Lemma stub_of_channel a w m st r st1 ch :
  Live a w st → stub_of lib m st = (r, st1) →
  _grpc_channel (self st) = Some ch → _grpc_channel (self st1) = Some ch.
Proof.
  intros HL E Hg. rewrite stub_of_eq in E.
  pose proof HL as [_ _ _ (addr & d & Hs & _ & Hd & _) _].
  destruct (d !! method_key m) as [s|] eqn:Hk.
  - rewrite (stub_property_hit _ _ _ _ _ _ d s) in E;
      [|by unfold stubs_dict; rewrite Hs|done].
    by injection E as <- <-.
  - rewrite (stub_property_miss _ _ _ _ _ _ addr d) in E by done.
    rewrite (grpc_channel_stored _ _ ch) in E by done.
    by injection E as <- <-.
Qed.

Lemma access_channel a w x st ch :
  Live a w st → _grpc_channel (self st) = Some ch →
  _grpc_channel (self (access lib x st)) = Some ch.
Proof.
  intros HL Hg. destruct x as [|m]; simpl.
  - by rewrite (grpc_channel_stored _ _ ch).
  - destruct (stub_of lib m st) as [r st1] eqn:E.
    by eapply stub_of_channel.
Qed.

Lemma run_channel a w xs st ch :
  Live a w st → _grpc_channel (self st) = Some ch →
  _grpc_channel (self (run lib xs st)) = Some ch.
Proof.
  revert st. induction xs as [|x xs IH]; intros st HL Hg; [done|].
  simpl. apply IH; [by apply access_live|by eapply access_channel].
Qed.

(** A read of [grpc_channel] returns a channel when one is stored or
    the library answers the request. *)
Lemma grpc_channel_available a w st :
  Live a w st →
  is_Some (_grpc_channel (self st)) ∨ (∀ t c, lib_error lib t c = None) →
  ∃ ch st', grpc_channel lib st = (inr ch, st').
Proof.
  intros [[h Hh] [c Hcr] _ _ _] Hor.
  destruct (_grpc_channel (self st)) as [ch|] eqn:Hg.
  - rewrite (grpc_channel_stored _ _ ch) by done. eauto.
  - destruct Hor as [[? [=]]|Hlib].
    rewrite (grpc_channel_lazy _ _ h c) by done. rewrite Hlib. eauto.
Qed.

(** The first read of a stub property, once the channel is there: one
    [unary_unary] call, whose result is stored and returned. *)
Lemma stub_of_first_read a w st m ch st' :
  Live a w st → cached st (method_key m) = None →
  grpc_channel lib st = (inr ch, st') →
  ∃ s st3, stub_of lib m st = (inr s, st3) ∧
    stub_serial s = stubs_created (world st) ∧ stub_channel s = ch ∧
    cached st3 (method_key m) = Some s ∧
    trace (world st3) =
      call_unary_unary ch (method_route m) (method_request m)
        (method_response m) :: trace (world st') ∧
    requests m (trace (world st3)) = S (requests m (trace (world st))) ∧
    stubs_created (world st3) = S (stubs_created (world st)).
Proof.
  intros HL Hk G.
  pose proof HL as [_ _ _ (addr & d & Hs & _ & Hd & Hent) _].
  rewrite (cached_own st addr d) in Hk by done.
  destruct (stub_of lib m st) as [r st3] eqn:E.
  destruct (stub_of_live lib a w _ _ _ _ HL E) as (HL3 & Hin & _ & _).
  rewrite stub_of_eq in E.
  rewrite (stub_property_miss _ _ _ _ _ _ addr d) in E by done.
  rewrite G in E. cbn zeta in E. injection E as <- <-.
  destruct (grpc_channel_live lib a w _ _ _ HL G) as (HL' & _ & _).
  pose proof G as (_ & _ & _ & _ & _ & Hn)%grpc_channel_frame.
  eexists _, _. split; [done|]. simpl. split_and!; try done.
  - by apply Hin.
  - rewrite requests_push. simpl. rewrite String.eqb_refl.
    destruct HL' as [_ _ _ (addr' & d' & Hs' & _ & Hd' & Hent') _].
    pose proof G as (Hs1 & _ & _ & Hh1 & _)%grpc_channel_frame.
    assert (addr' = addr) as -> by congruence.
    assert (d' = d) as -> by congruence.
    specialize (Hent' m). specialize (Hent m). rewrite Hk in Hent, Hent'.
    simpl in *. congruence.
  - by rewrite Hn.
Qed.

(** A stub property returns a stub on the channel [grpc_channel] would
    return, whenever that read returns one. *)
Lemma stub_of_returns a w st m ch st' :
  Live a w st → grpc_channel lib st = (inr ch, st') →
  ∃ s st3, stub_of lib m st = (inr s, st3) ∧ stub_channel s = ch.
Proof.
  intros HL G.
  destruct (cached st (method_key m)) as [s|] eqn:Hk.
  - pose proof HL as [_ _ _ (addr & d & Hs & _ & Hd & Hent) _].
    rewrite (cached_own st addr d) in Hk by done.
    specialize (Hent m). rewrite Hk in Hent.
    destruct Hent as (_ & _ & _ & _ & Hg & _).
    rewrite (grpc_channel_stored _ _ _ Hg) in G. injection G as <- <-.
    exists s, st. split; [|done]. rewrite stub_of_eq.
    apply (stub_property_hit lib _ _ _ _ _ d); [|done].
    unfold stubs_dict. by rewrite Hs.
  - destruct (stub_of_first_read a w st m ch st' HL Hk G)
      as (s & st3 & E & _ & Hch & _). eauto.
Qed.

(** C1.  For a constructed instance and each method [m]: over any sequence
    of property reads the route of [m] is passed to [unary_unary] at most
    once, and not at all while the cache has no entry for [m].  The first
    read of the property (no entry yet) makes that one call as soon as
    the instance's channel is there, stores the new stub in the
    instance's cache under the method name and returns it; a read that
    finds an entry returns it and changes nothing (no call, no new stub),
    and so does every later read.  The read returns a stub whenever the
    instance holds a channel or the library raises nothing. *)
Theorem stub_created_once_and_reused a w st1 xs m :
  construct lib a w = (inr (), st1) →
  let st2 := run lib xs st1 in
  requests m (trace (world st2)) ≤ S (requests m (trace w)) ∧
  (cached st2 (method_key m) = None →
   requests m (trace (world st2)) = requests m (trace w)) ∧
  (∀ s st3, stub_of lib m st2 = (inr s, st3) →
    cached st3 (method_key m) = Some s ∧
    requests m (trace (world st3)) = S (requests m (trace w)) ∧
    ∀ ys, let st4 := run lib ys st3 in
      stub_of lib m st4 = (inr s, st4)) ∧
  (∀ ch st', cached st2 (method_key m) = None →
     grpc_channel lib st2 = (inr ch, st') →
     ∃ s st3, stub_of lib m st2 = (inr s, st3) ∧
       stub_serial s = stubs_created (world st2) ∧ stub_channel s = ch ∧
       cached st3 (method_key m) = Some s ∧
       trace (world st3) =
         call_unary_unary ch (method_route m) (method_request m)
           (method_response m) :: trace (world st') ∧
       requests m (trace (world st3)) = S (requests m (trace (world st2))) ∧
       stubs_created (world st3) = S (stubs_created (world st2))) ∧
  (∀ s, cached st2 (method_key m) = Some s →
     stub_of lib m st2 = (inr s, st2)) ∧
  (is_Some (_grpc_channel (self st2)) ∨ (∀ t c, lib_error lib t c = None) →
   ∃ s st3, stub_of lib m st2 = (inr s, st3)).
Proof.
  intros Hc st2.
  assert (HL : Live a w st2)
    by (apply run_live; by apply (construct_live lib)).
  pose proof HL as [_ _ _ (addr & d & Hs & _ & Hd & Hent) _].
  pose proof (Hent m) as Hm. rewrite <- (cached_own st2 addr d) in Hm by done.
  split_and!.
  - destruct (cached st2 (method_key m)); simpl in Hm; lia.
  - intros Hn. by rewrite Hn in Hm.
  - intros s st3 E.
    destruct (stub_of_live lib a w _ _ _ _ HL E) as (HL3 & Hin & _ & _).
    specialize (Hin s eq_refl). split_and!; [done|..].
    + destruct HL3 as [_ _ _ (addr3 & d3 & Hs3 & _ & Hd3 & Hent3) _].
      specialize (Hent3 m). rewrite <- (cached_own st3 addr3 d3) in Hent3 by done.
      rewrite Hin in Hent3. by destruct Hent3.
    + intros ys st4.
      assert (HL4 : Live a w st4) by by apply run_live.
      assert (H4 : cached st4 (method_key m) = Some s) by by eapply run_cached.
      destruct (stub_of lib m st4) as [r st5] eqn:E4.
      destruct (stub_of_live lib a w _ _ _ _ HL4 E4) as (_ & _ & Hhit & _).
      by destruct (Hhit s H4) as [-> ->].
  - intros ch st' Hk G. by apply (stub_of_first_read a w).
  - intros s Hk.
    destruct (stub_of lib m st2) as [r st3] eqn:E.
    destruct (stub_of_live lib a w _ _ _ _ HL E) as (_ & _ & Hhit & _).
    by destruct (Hhit s Hk) as [-> ->].
  - intros Hor.
    destruct (grpc_channel_available a w st2 HL Hor) as (ch & st' & G).
    destruct (stub_of_returns a w st2 m ch st' HL G) as (s & st3 & E & _).
    eauto.
Qed.

(** C2.  From construction on, over any sequence of property reads, at
    most one channel is ever created for the instance.  A channel supplied
    at construction stays the instance's channel and none is created; a
    channel present after construction (supplied or built for the
    mutual-TLS endpoint) stays; a read of [grpc_channel] that returns a
    channel stores it; and once a channel is stored every later read of
    [grpc_channel] returns it and changes nothing. *)
Theorem channel_created_at_most_once a w st1 xs :
  construct lib a w = (inr (), st1) →
  let st2 := run lib xs st1 in
  channels_created (world st2) ≤ S (channels_created w) ∧
  (∀ ch, arg_channel a = Some ch →
     _grpc_channel (self st2) = Some ch ∧
     channels_created (world st2) = channels_created w) ∧
  (∀ ch, _grpc_channel (self st1) = Some ch →
     _grpc_channel (self st2) = Some ch) ∧
  (_grpc_channel (self st2) = None →
     channels_created (world st2) = channels_created w) ∧
  (∀ ch st3, grpc_channel lib st2 = (inr ch, st3) →
     _grpc_channel (self st3) = Some ch) ∧
  (∀ ch, _grpc_channel (self st2) = Some ch →
     ∀ ys, let st3 := run lib ys st2 in
       grpc_channel lib st3 = (inr ch, st3) ∧
       channels_created (world st3) = channels_created (world st2)).
Proof.
  intros Hc st2.
  assert (HL1 : Live a w st1) by by apply (construct_live lib).
  assert (HL : Live a w st2) by by apply run_live.
  pose proof (live_channel _ _ _ HL) as Hch. unfold channel_ok in Hch.
  split_and!.
  - destruct (_grpc_channel (self st2)); [destruct Hch as [[]|(?&?&?)]|]; lia.
  - intros ch Ha. destruct (_grpc_channel (self st2)) as [ch'|].
    + destruct Hch as [[? ?]|(?&?&?)]; [|congruence].
      split; [congruence|done].
    + destruct Hch. congruence.
  - intros ch Hg. by eapply run_channel.
  - intros Hn. rewrite Hn in Hch. by destruct Hch.
  - intros ch st3 E.
    destruct (grpc_channel_live lib a w _ _ _ HL E) as (_ & Hst & _). eauto.
  - intros ch Hg ys st3.
    assert (HL3 : Live a w st3) by by apply run_live.
    assert (Hg3 : _grpc_channel (self st3) = Some ch) by by eapply run_channel.
    split; [by apply grpc_channel_stored|].
    pose proof (live_channel _ _ _ HL3) as Hch3. unfold channel_ok in Hch3.
    rewrite Hg in Hch. rewrite Hg3 in Hch3.
    destruct Hch as [[? ?]|(?&?&?)], Hch3 as [[? ?]|(?&?&?)]; congruence.
Qed.

(** What a successful read of the property for [m] returns. *)
Lemma stub_of_entry a w st m s st3 :
  Live a w st → stub_of lib m st = (inr s, st3) →
  stub_route s = method_route m ∧
  request_serializer s = method_request m ∧
  response_deserializer s = method_response m ∧
  _grpc_channel (self st3) = Some (stub_channel s) ∧
  call_unary_unary (stub_channel s) (method_route m) (method_request m)
    (method_response m) ∈ trace (world st3).
Proof.
  intros HL E.
  destruct (stub_of_live lib a w _ _ _ _ HL E) as (HL3 & Hin & _ & _).
  specialize (Hin s eq_refl).
  destruct HL3 as [_ _ _ (addr & d & Hs & _ & Hd & Hent) _].
  specialize (Hent m). rewrite <- (cached_own st3 addr d) in Hent by done.
  rewrite Hin in Hent. destruct Hent as (_ & ? & ? & ? & ? & _ & ?). done.
Qed.

(** C3.  On every constructed instance, after any reads, each of the
    four properties returns a callable whenever the instance's channel is
    there (a read of [grpc_channel] would return it), which it is when a
    channel is stored or the library raises nothing; and the callable a
    property returns was obtained from [unary_unary] on the instance's
    channel under the fixed route of its method:
    [.../GenerateAccessToken], [.../GenerateIdToken], [.../SignBlob] and
    [.../SignJwt] respectively. *)
Theorem stubs_bound_to_fixed_routes a w st1 xs :
  construct lib a w = (inr (), st1) →
  let st2 := run lib xs st1 in
  let bound (route : string) (rq rs : Message) (s : Stub) (st3 : State) :=
    stub_route s = route ∧
    _grpc_channel (self st3) = Some (stub_channel s) ∧
    call_unary_unary (stub_channel s) route rq rs ∈ trace (world st3) in
  let served (property : M State Stub) (route : string) (rq rs : Message) :=
    (∀ s st3, property st2 = (inr s, st3) → bound route rq rs s st3) ∧
    (∀ ch st', grpc_channel lib st2 = (inr ch, st') →
       ∃ s st3, property st2 = (inr s, st3) ∧ stub_channel s = ch ∧
                bound route rq rs s st3) in
  served (generate_access_token lib)
    "/google.iam.credentials.v1.IAMCredentials/GenerateAccessToken"
    GenerateAccessTokenRequest GenerateAccessTokenResponse ∧
  served (generate_id_token lib)
    "/google.iam.credentials.v1.IAMCredentials/GenerateIdToken"
    GenerateIdTokenRequest GenerateIdTokenResponse ∧
  served (sign_blob lib)
    "/google.iam.credentials.v1.IAMCredentials/SignBlob"
    SignBlobRequest SignBlobResponse ∧
  served (sign_jwt lib)
    "/google.iam.credentials.v1.IAMCredentials/SignJwt"
    SignJwtRequest SignJwtResponse ∧
  (is_Some (_grpc_channel (self st2)) ∨ (∀ t c, lib_error lib t c = None) →
   ∃ ch st', grpc_channel lib st2 = (inr ch, st')).
Proof.
  intros Hc st2 bound served.
  assert (HL : Live a w st2)
    by (apply run_live; by apply (construct_live lib)).
  assert (Hserved : ∀ m,
            served (stub_of lib m) (method_route m) (method_request m)
              (method_response m)).
  { intros m. split.
    - intros s st3 E.
      destruct (stub_of_entry a w st2 m s st3 HL E) as (? & ? & ? & ? & ?).
      by split_and!.
    - intros ch st' G.
      destruct (stub_of_returns a w st2 m ch st' HL G) as (s & st3 & E & Hch).
      exists s, st3. split_and!; [done|done|].
      destruct (stub_of_entry a w st2 m s st3 HL E) as (? & ? & ? & ? & ?).
      by split_and!. }
  split_and!.
  - exact (Hserved GenerateAccessToken).
  - exact (Hserved GenerateIdToken).
  - exact (Hserved SignBlob).
  - exact (Hserved SignJwt).
  - by apply (grpc_channel_available a w).
Qed.
End Runs.

(** ** The constructor *)

Section Construction.
Context (lib : Library).

Lemma char_in_spec c s :
  char_in c s = true ↔ ∃ s1 s2, s = s1 +:+ String c s2.
Proof.
  induction s as [|c' s IH]; simpl.
  - split; [done|]. intros ([|??] & ? & ?); discriminate.
  - rewrite orb_true_iff, IH, Ascii.eqb_eq. split.
    + intros [->|(s1 & s2 & ->)].
      * by exists "", s.
      * by exists (String c' s1), s2.
    + intros ([|c1 s1] & s2 & E); simpl in E; injection E as -> ->.
      * by left.
      * right. eauto.
Qed.

(** When the SSL step returns, it returns [ssl_value] after [ssl_calls]. *)
Lemma ssl_step_returns src w ssl w1 :
  mtls_ssl_credentials lib src w = (inr ssl, w1) →
  ssl_step_failure lib src w = None ∧
  ssl = ssl_value src ∧ w1 = push_calls (ssl_calls src) w.
Proof.
  rewrite mtls_ssl_credentials_eq.
  destruct (ssl_step_failure lib src w) as [[code made]|]; [done|].
  by intros [= <- <-].
Qed.

(** Every outcome of the constructor on the mutual-TLS branch: the SSL
    step raised, the arguments were duplicates, the channel request
    failed, the base constructor failed, or all went well. *)
Ltac mtls_outcomes a w ep :=
  rewrite (construct_mtls lib a w ep) by done; cbn zeta;
  unfold base_outcome;
  destruct (ssl_step_failure lib (arg_client_cert_source a) w)
    as [[?code ?made]|] eqn:?Hssl;
  [|destruct (duplicate_credential_args (arg_credentials a)
                (arg_credentials_file a)) eqn:?;
    [|destruct (lib_error lib _ (mtls_call lib a ep)) eqn:?;
      [|destruct (lib_error lib _ (base_call lib a _ _)) eqn:?]]];
  cbn [fst snd world self trace push_call push_calls count_channel
       with_heap built channels_created].

(** The hosts the mutual-TLS branch hands out. *)
Lemma mtls_hosts a w ep :
  arg_channel a = None → arg_api_mtls_endpoint a = Some ep → ep ≠ "" →
  let r := construct lib a w in
  (∀ h, h ∈ channel_hosts (trace (world r.2)) →
     h = mtls_host ep ∨ h ∈ channel_hosts (trace w)) ∧
  (∀ h, h ∈ base_hosts (trace (world r.2)) →
     h = mtls_host ep ∨ h ∈ base_hosts (trace w)) ∧
  (∀ ssl w1,
     mtls_ssl_credentials lib (arg_client_cert_source a) w = (inr ssl, w1) →
     channel_hosts (trace (world r.2))
     = mtls_host ep :: channel_hosts (trace w)) ∧
  (∀ st1, r = (inr (), st1) →
     _grpc_channel (self st1) =
     Some (Created (channels_created w) (mtls_host ep)
             (Some (ssl_value (arg_client_cert_source a))))).
Proof.
  intros Hch Hep Hne r. subst r.
  assert (Hc : ∀ t, channel_hosts
                      (ssl_calls (arg_client_cert_source a) ++ t)
                    = channel_hosts t)
    by (intros t; by destruct (arg_client_cert_source a)).
  assert (Hb : ∀ t, base_hosts (ssl_calls (arg_client_cert_source a) ++ t)
                    = base_hosts t)
    by (intros t; by destruct (arg_client_cert_source a)).
  assert (Hm : ∀ made t, channel_hosts made = [] →
                 channel_hosts (made ++ t) = channel_hosts t).
  { induction made as [|[] made IH]; simpl; intros t ?; auto; done. }
  assert (Hmb : ∀ made t, base_hosts made = [] →
                  base_hosts (made ++ t) = base_hosts t).
  { induction made as [|[] made IH]; simpl; intros t ?; auto; done. }
  split_and!.
  - intros h. mtls_outcomes a w ep; simpl; rewrite ?Hc, ?elem_of_cons;
      try naive_solver.
    apply ssl_step_failure_made in Hssl as (_ & _ & Hn & _).
    rewrite (Hm _ _ Hn). eauto.
  - intros h. mtls_outcomes a w ep; simpl; rewrite ?Hb, ?elem_of_cons;
      try naive_solver.
    apply ssl_step_failure_made in Hssl as (_ & _ & _ & Hn & _).
    rewrite (Hmb _ _ Hn). eauto.
  - intros ssl w1 (Hnone & _ & _)%ssl_step_returns.
    mtls_outcomes a w ep; simpl; rewrite ?Hc; done.
  - intros st1. mtls_outcomes a w ep; by intros [= <-].
Qed.

(** C6, as amended.  Without a pre-built channel and with a non-empty
    [api_mtls_endpoint], every channel the constructor asks for is asked
    for at the endpoint (with the default port when it names none),
    whatever [host] is; it asks for exactly one once the SSL credentials
    are built; when construction succeeds that channel is the
    instance's channel; and the [host] argument has no influence on the
    outcome at all. *)
Theorem mtls_endpoint_overrides_host a w ep :
  arg_channel a = None → arg_api_mtls_endpoint a = Some ep → ep ≠ "" →
  let r := construct lib a w in
  (mtls_host ep = ep ∨ mtls_host ep = ep +:+ ":443") ∧
  (∀ h, h ∈ channel_hosts (trace (world r.2)) →
     h = mtls_host ep ∨ h ∈ channel_hosts (trace w)) ∧
  (∀ ssl w1,
     mtls_ssl_credentials lib (arg_client_cert_source a) w = (inr ssl, w1) →
     channel_hosts (trace (world r.2))
     = mtls_host ep :: channel_hosts (trace w)) ∧
  (∀ st1, r = (inr (), st1) →
     ∃ ssl, _grpc_channel (self st1) =
            Some (Created (channels_created w) (mtls_host ep) (Some ssl))) ∧
  (∀ h, construct lib (set_host h a) w = r).
Proof.
  intros Hch Hep Hne r. subst r.
  destruct (mtls_hosts a w ep Hch Hep Hne) as (H1 & _ & H2 & H3).
  split_and!; [|done|done|..].
  - unfold mtls_host. destruct (char_in _ _); eauto.
  - intros st1 E. rewrite (H3 st1 E). eauto.
  - intros h. rewrite (construct_mtls lib (set_host h a) w ep) by done.
    by rewrite (construct_mtls lib a w ep) by done.
Qed.

Lemma count_calls_app p t1 t2 :
  count_calls p (t1 ++ t2) = count_calls p t1 + count_calls p t2.
Proof. induction t1 as [|c t1 IH]; simpl; [done|]. rewrite IH. lia. Qed.

(** C7, as amended.  On the mutual-TLS branch (no pre-built channel, a
    non-empty endpoint) a callback, when there is one, is invoked exactly
    once, whatever happens next; when the SSL step returns, what it
    returns is built from the callback's pair (certificate chain, private
    key) if there is a callback and is the application default
    otherwise, with no callback invocation; the channel request carries
    exactly those credentials, and so does the instance's channel when
    construction succeeds. *)
Theorem mtls_ssl_credentials_source a w ep :
  arg_channel a = None → arg_api_mtls_endpoint a = Some ep → ep ≠ "" →
  let r := construct lib a w in
  let request ssl :=
    call_create_channel (mtls_host ep) (arg_credentials a)
      (arg_credentials_file a) (scopes_or (arg_scopes a) (AUTH_SCOPES lib))
      (arg_quota_project_id a) (Some ssl) in
  match arg_client_cert_source a with
  | Some f =>
      count_calls is_cert_source_call (trace (world r.2)) =
        S (count_calls is_cert_source_call (trace w)) ∧
      (∀ ssl w1,
         mtls_ssl_credentials lib (Some f) w = (inr ssl, w1) →
         ssl = ssl_from_pair (f ()).1 (f ()).2 ∧
         ∃ rest,
           trace (world r.2) =
             rest ++
             [request (ssl_from_pair (f ()).1 (f ()).2);
              call_ssl_channel_credentials (f ()).1 (f ()).2;
              call_client_cert_source] ++ trace w) ∧
      (∀ st1, r = (inr (), st1) →
         _grpc_channel (self st1) =
         Some (Created (channels_created w) (mtls_host ep)
                 (Some (ssl_from_pair (f ()).1 (f ()).2))))
  | None =>
      count_calls is_cert_source_call (trace (world r.2)) =
        count_calls is_cert_source_call (trace w) ∧
      (∀ ssl w1,
         mtls_ssl_credentials lib None w = (inr ssl, w1) →
         ssl = ssl_application_default ∧
         ∃ rest,
           trace (world r.2) =
             rest ++
             [request ssl_application_default; call_SslCredentials] ++
             trace w) ∧
      (∀ st1, r = (inr (), st1) →
         _grpc_channel (self st1) =
         Some (Created (channels_created w) (mtls_host ep)
                 (Some ssl_application_default)))
  end.
Proof.
  intros Hch Hep Hne r request. subst r request.
  destruct (mtls_hosts a w ep Hch Hep Hne) as (_ & _ & _ & Hok).
  unfold mtls_call, base_call.
  destruct (arg_client_cert_source a) as [f|] eqn:Hsrc.
  - split_and!.
    + mtls_outcomes a w ep; rewrite ?Hsrc in *; try reflexivity.
      rewrite count_calls_app.
      apply ssl_step_failure_made in Hssl as (_ & _ & _ & _ & _ & _ & ->);
        [done|by eexists].
    + intros ssl w1 (Hnone & -> & _)%ssl_step_returns. split; [done|].
      mtls_outcomes a w ep; rewrite ?Hsrc in *; try congruence;
        unfold mtls_call; rewrite Hsrc; simpl;
        first [by exists [] | by eexists [_]].
    + done.
  - split_and!.
    + mtls_outcomes a w ep; rewrite ?Hsrc in *; try reflexivity.
      rewrite count_calls_app. simpl in Hssl.
      destruct (lib_error lib (trace w) call_SslCredentials); [|done].
      by injection Hssl as <- <-.
    + intros ssl w1 (Hnone & -> & _)%ssl_step_returns. split; [done|].
      mtls_outcomes a w ep; rewrite ?Hsrc in *; try congruence;
        unfold mtls_call; rewrite Hsrc; simpl;
        first [by exists [] | by eexists [_]].
    + done.
Qed.

(** C8.  On the mutual-TLS branch every host the constructor asks a
    channel for is the endpoint followed by [":443"] when the endpoint
    has no [":"], and the endpoint itself when it has one.  On every run
    that gets as far as the channel request (the SSL step returned) there
    is exactly one such request, and its host is also the only host the
    base constructor can be handed and the target of the instance's
    channel. *)
Theorem mtls_endpoint_default_port a w ep :
  arg_channel a = None → arg_api_mtls_endpoint a = Some ep → ep ≠ "" →
  let r := construct lib a w in
  let host :=
    hd "" (channel_hosts (trace (world r.2))) in
  (∀ h, h ∈ channel_hosts (trace (world r.2)) →
     h ∈ channel_hosts (trace w) ∨
     ((¬ ∃ s1 s2, ep = s1 +:+ String ":" s2) → h = ep +:+ ":443") ∧
     ((∃ s1 s2, ep = s1 +:+ String ":" s2) → h = ep)) ∧
  (∀ ssl w1,
     mtls_ssl_credentials lib (arg_client_cert_source a) w = (inr ssl, w1) →
     length (channel_hosts (trace (world r.2))) =
       S (length (channel_hosts (trace w))) ∧
     ((¬ ∃ s1 s2, ep = s1 +:+ String ":" s2) → host = ep +:+ ":443") ∧
     ((∃ s1 s2, ep = s1 +:+ String ":" s2) → host = ep) ∧
     (∀ h, h ∈ base_hosts (trace (world r.2)) →
        h = host ∨ h ∈ base_hosts (trace w)) ∧
     (∀ st1, r = (inr (), st1) →
        ∃ n ssl, _grpc_channel (self st1) = Some (Created n host ssl))).
Proof.
  intros Hch Hep Hne r host.
  destruct (mtls_hosts a w ep Hch Hep Hne) as (Hin & Hbase & Hhosts & Hok).
  assert (Hno : (¬ ∃ s1 s2, ep = s1 +:+ String ":" s2) →
                mtls_host ep = ep +:+ ":443").
  { intros Hno. unfold mtls_host.
    destruct (char_in _ _) eqn:E; [|done]. by apply char_in_spec in E. }
  assert (Hyes : (∃ s1 s2, ep = s1 +:+ String ":" s2) → mtls_host ep = ep).
  { intros Hyes. unfold mtls_host.
    apply char_in_spec in Hyes. by rewrite Hyes. }
  split.
  - intros h [->|?]%Hin; [right|by left]. done.
  - intros ssl w1 E. subst r host. rewrite (Hhosts ssl w1 E). simpl.
    split_and!; [done..|].
    intros st1 E1. rewrite (Hok st1 E1). eauto.
Qed.

(** C9.  With a pre-built channel the constructor makes one outside call,
    the base constructor's, and passes it [False] for the credentials; it
    creates no channel; the outcome is the same whatever [credentials],
    [api_mtls_endpoint] and [client_cert_source] are; it never fails on
    duplicate credential arguments; and when it succeeds the supplied
    channel is the instance's channel. *)
Theorem supplied_channel_takes_precedence a w ch :
  arg_channel a = Some ch →
  let r := construct lib a w in
  trace (world r.2) =
    call_super_init (default DEFAULT_HOST (arg_host a)) cred_False
      (arg_credentials_file a) (scopes_or (arg_scopes a) (AUTH_SCOPES lib))
      (arg_quota_project_id a) :: trace w ∧
  channels_created (world r.2) = channels_created w ∧
  (∀ credentials api_mtls_endpoint client_cert_source,
     construct lib
       (set_ignored credentials api_mtls_endpoint client_cert_source a) w
     = r) ∧
  r.1 ≠ inl DuplicateCredentialArgs ∧
  (∀ st1, r = (inr (), st1) → _grpc_channel (self st1) = Some ch).
Proof.
  intros Hch r. subst r. split_and!.
  - rewrite (construct_supplied lib a w ch) by done. unfold base_outcome.
    simpl. by destruct (lib_error _ _ _).
  - rewrite (construct_supplied lib a w ch) by done. unfold base_outcome.
    simpl. by destruct (lib_error _ _ _).
  - intros c ep src.
    rewrite (construct_supplied lib (set_ignored c ep src a) w ch) by done.
    by rewrite (construct_supplied lib a w ch) by done.
  - rewrite (construct_supplied lib a w ch) by done. unfold base_outcome.
    simpl. by destruct (lib_error _ _ _).
  - intros st1. rewrite (construct_supplied lib a w ch) by done.
    unfold base_outcome. simpl.
    destruct (lib_error _ _ _); [done|]. by intros [= <-].
Qed.

(** C5, as amended.  Constructing with both a credentials object and a
    credentials file, and no pre-built channel, always fails and
    allocates no instance state.  The error is the library's
    duplicate-credential-argument error, raised by the one call that is
    given both arguments, which is the last thing the constructor does
    (no second attempt); except that on the mutual-TLS branch the SSL
    step comes first, and when that raises, its error is what the
    constructor raises and no call is given the credentials at all.
    Either error reaches the caller unchanged. *)
Theorem duplicate_credentials_rejected a w id f :
  arg_credentials a = cred_Object id →
  arg_credentials_file a = Some f →
  arg_channel a = None →
  let r := construct lib a w in
  let reached :=
    r.1 = inl DuplicateCredentialArgs ∧
    (∃ c t, trace (world r.2) = c :: t ∧
            call_credentials c = Some (cred_Object id, Some f)) ∧
    count_calls takes_credentials (trace (world r.2)) =
      S (count_calls takes_credentials (trace w)) in
  heap (world r.2) = heap w ∧
  _stubs (self r.2) = None ∧
  (reached ∨
   truthy_str (arg_api_mtls_endpoint a) = true ∧
   (∃ code,
      mtls_ssl_credentials lib (arg_client_cert_source a) w
      = (inl (LibraryError code), world r.2) ∧
      r.1 = inl (LibraryError code)) ∧
   count_calls takes_credentials (trace (world r.2)) =
     count_calls takes_credentials (trace w)) ∧
  (truthy_str (arg_api_mtls_endpoint a) = false → reached) ∧
  (∀ ssl w1,
     mtls_ssl_credentials lib (arg_client_cert_source a) w = (inr ssl, w1) →
     reached).
Proof.
  intros Hcr Hf Hch r reached. subst r.
  assert (Hdup : duplicate_credential_args (arg_credentials a)
                   (arg_credentials_file a) = true)
    by by rewrite Hcr, Hf.
  destruct (truthy_str (arg_api_mtls_endpoint a)) eqn:Hep.
  - apply truthy_str_Some in Hep as (ep & Hep & Hne).
    assert (Hreached : ssl_step_failure lib (arg_client_cert_source a) w
                       = None → reached).
    { intros Hnone. subst reached.
      rewrite (construct_mtls lib a w ep) by done. cbn zeta.
      rewrite Hnone, Hdup. simpl. unfold mtls_call. rewrite Hcr, Hf.
      split_and!; try done; [by eexists _, _|].
      rewrite count_calls_app. by destruct (arg_client_cert_source a). }
    split_and!.
    + rewrite (construct_mtls lib a w ep) by done. cbn zeta.
      destruct (ssl_step_failure _ _ _) as [[??]|]; [done|].
      by rewrite Hdup.
    + rewrite (construct_mtls lib a w ep) by done. cbn zeta.
      destruct (ssl_step_failure _ _ _) as [[??]|]; [done|].
      by rewrite Hdup.
    + destruct (ssl_step_failure lib (arg_client_cert_source a) w)
        as [[code made]|] eqn:Hssl; [right|by left; apply Hreached].
      rewrite (construct_mtls lib a w ep) by done. cbn zeta.
      rewrite mtls_ssl_credentials_eq, Hssl. simpl.
      split_and!; [done|by exists code|].
      rewrite count_calls_app.
      destruct (arg_client_cert_source a) as [g|]; simpl in Hssl.
      * destruct (lib_error lib (trace w) call_client_cert_source);
          [by injection Hssl as <- <-|].
        destruct (lib_error lib (_ :: trace w) _); [|done].
        by injection Hssl as <- <-.
      * destruct (lib_error lib (trace w) call_SslCredentials); [|done].
        by injection Hssl as <- <-.
    + done.
    + intros ssl w1 (Hnone & _)%ssl_step_returns. by apply Hreached.
  - assert (Hreached : reached).
    { subst reached.
      rewrite (construct_plain lib a w) by done. unfold base_outcome.
      rewrite Hdup. simpl. unfold base_call. rewrite Hcr, Hf.
      split_and!; try done. by eexists _, _. }
    split_and!; try done; [..|by left].
    + rewrite (construct_plain lib a w) by done. unfold base_outcome.
      by rewrite Hdup.
    + rewrite (construct_plain lib a w) by done. unfold base_outcome.
      by rewrite Hdup.
Qed.

(** C4, as amended.  [create_channel] called without [host] asks the
    library for a channel to ["iamcredentials.googleapis.com"].  A
    constructor call without [host] hands that same default to the base
    constructor and asks for no channel, unless no channel is supplied and
    a non-empty [api_mtls_endpoint] is: then every host it hands out is
    the endpoint (with the default port when it names none), and it asks
    for one channel there once the SSL credentials are built. *)
Theorem default_host_unless_mtls_endpoint a w :
  arg_host a = None →
  let r := construct lib a w in
  (∀ credentials credentials_file scopes quota_project_id ssl w',
     channel_hosts
       (trace (create_channel lib None credentials credentials_file scopes
                 quota_project_id ssl w').2)
     = "iamcredentials.googleapis.com" :: channel_hosts (trace w')) ∧
  match arg_channel a, arg_api_mtls_endpoint a with
  | None, Some (String c ep) =>
      (∀ h, h ∈ channel_hosts (trace (world r.2)) →
            h = mtls_host (String c ep) ∨ h ∈ channel_hosts (trace w)) ∧
      (∀ h, h ∈ base_hosts (trace (world r.2)) →
            h = mtls_host (String c ep) ∨ h ∈ base_hosts (trace w)) ∧
      (∀ ssl w1,
         mtls_ssl_credentials lib (arg_client_cert_source a) w
         = (inr ssl, w1) →
         channel_hosts (trace (world r.2)) =
           mtls_host (String c ep) :: channel_hosts (trace w))
  | _, _ =>
      channel_hosts (trace (world r.2)) = channel_hosts (trace w) ∧
      base_hosts (trace (world r.2)) =
        "iamcredentials.googleapis.com" :: base_hosts (trace w)
  end.
Proof.
  intros Hh r. subst r. split.
  - intros cr f sc q ssl w'. unfold create_channel.
    rewrite library_create_channel_eq. simpl.
    destruct (duplicate_credential_args _ _); [done|].
    by destruct (lib_error _ _ _).
  - destruct (arg_channel a) as [ch|] eqn:Hch.
    + rewrite (construct_supplied lib a w ch) by done. unfold base_outcome.
      rewrite Hh. simpl. by destruct (lib_error _ _ _).
    + destruct (arg_api_mtls_endpoint a) as [[|c ep]|] eqn:Hep.
      * rewrite (construct_plain lib a w) by (by rewrite ?Hep).
        unfold base_outcome. rewrite Hh. simpl.
        destruct (duplicate_credential_args _ _); [done|].
        by destruct (lib_error _ _ _).
      * destruct (mtls_hosts a w (String c ep)) as (? & ? & ? & _); done.
      * rewrite (construct_plain lib a w) by (by rewrite ?Hep).
        unfold base_outcome. rewrite Hh. simpl.
        destruct (duplicate_credential_args _ _); [done|].
        by destruct (lib_error _ _ _).
Qed.
End Construction.

(** C4, as stated, fails: constructed without [host] but with an
    [api_mtls_endpoint], the transport asks for its channel at the
    endpoint and hands the endpoint to the base constructor. *)
Lemma default_host_not_used_with_mtls_endpoint :
  let st := (construct sample_library mtls_args empty_world).2 in
  arg_host mtls_args = None ∧
  channel_hosts (trace (world st)) =
    ["iamcredentials.mtls.googleapis.com:443"] ∧
  base_hosts (trace (world st)) =
    ["iamcredentials.mtls.googleapis.com:443"] ∧
  _grpc_channel (self st) =
    Some (Created 0 "iamcredentials.mtls.googleapis.com:443"
            (Some ssl_application_default)) ∧
  ¬ (∀ h, h ∈ channel_hosts (trace (world st)) ++
              base_hosts (trace (world st)) →
          h = "iamcredentials.googleapis.com").
Proof.
  split_and!; try reflexivity.
  intros H.
  assert (E := H "iamcredentials.mtls.googleapis.com:443" ltac:(left)).
  discriminate E.
Qed.

(** C6, as stated, fails: an [api_mtls_endpoint] that is given but empty
    does not override [host].  No channel is created during
    construction, the base constructor is handed [host], and the channel
    the first read of [grpc_channel] creates connects to [host]. *)
Lemma empty_endpoint_does_not_override_host :
  let r := construct sample_library empty_endpoint_args empty_world in
  arg_channel empty_endpoint_args = None ∧
  arg_api_mtls_endpoint empty_endpoint_args = Some "" ∧
  arg_host empty_endpoint_args = Some "host.example.com" ∧
  r.1 = inr () ∧
  channel_hosts (trace (world r.2)) = [] ∧
  _grpc_channel (self r.2) = None ∧
  base_hosts (trace (world r.2)) = ["host.example.com"] ∧
  (grpc_channel sample_library r.2).1
  = inr (Created 0 "host.example.com" None).
Proof. by split_and!. Qed.

(** C7, as stated, fails: with an [api_mtls_endpoint] that is given but
    empty, the callback is never invoked and no SSL credentials are
    built. *)
Lemma callback_not_invoked_for_empty_endpoint :
  let r := construct sample_library empty_endpoint_args empty_world in
  arg_channel empty_endpoint_args = None ∧
  arg_api_mtls_endpoint empty_endpoint_args = Some "" ∧
  is_Some (arg_client_cert_source empty_endpoint_args) ∧
  r.1 = inr () ∧
  count_calls is_cert_source_call (trace (world r.2)) = 0 ∧
  trace (world r.2) =
    [call_super_init "host.example.com" cred_None None
       ["https://www.googleapis.com/auth/cloud-platform"] None].
Proof. split_and!; try reflexivity. by eexists. Qed.

(** C5, as stated, fails: with both credentials arguments and an
    [api_mtls_endpoint], when [SslCredentials().ssl_credentials] raises,
    that error is what the constructor raises; the arguments never reach
    a call that could reject them. *)
Lemma duplicate_error_preempted_by_ssl_failure :
  let r := construct ssl_failing_library duplicate_mtls_args empty_world in
  arg_credentials duplicate_mtls_args = cred_Object 1 ∧
  arg_credentials_file duplicate_mtls_args = Some "key.json" ∧
  arg_channel duplicate_mtls_args = None ∧
  r.1 = inl (LibraryError 2) ∧
  r.1 ≠ inl DuplicateCredentialArgs ∧
  trace (world r.2) = [call_SslCredentials].
Proof. by split_and!. Qed.

(** ** Instances do not share stubs *)

Section Sharing.
Context (lib : Library).

(** A successful constructor call ends by binding a new, empty
    dictionary to the instance; nothing else in the heap moves. *)
Lemma construct_fresh a w st1 :
  construct lib a w = (inr (), st1) →
  _stubs (self st1) = Some (length (heap w)) ∧
  heap (world st1) = heap w ++ [∅] ∧
  cls_stubs (world st1) = cls_stubs w ∧
  stubs_created (world st1) = stubs_created w.
Proof.
  destruct (arg_channel a) as [ch|] eqn:Hch.
  - rewrite (construct_supplied lib a w ch) by done. unfold base_outcome.
    destruct (duplicate_credential_args _ _); [done|].
    destruct (lib_error _ _ _); [done|]. by intros [= <-].
  - destruct (truthy_str (arg_api_mtls_endpoint a)) eqn:Hep.
    + apply truthy_str_Some in Hep as (ep & Hep & Hne).
      rewrite (construct_mtls lib a w ep) by done. cbn zeta.
      destruct (ssl_step_failure _ _ _) as [[? ?]|]; [done|].
      destruct (duplicate_credential_args _ _) eqn:Hd; [done|].
      destruct (lib_error _ _ _); [done|]. unfold base_outcome.
      rewrite Hd.
      destruct (lib_error _ _ _); [done|]. by intros [= <-].
    + rewrite (construct_plain lib a w) by done. unfold base_outcome.
      destruct (duplicate_credential_args _ _); [done|].
      destruct (lib_error _ _ _); [done|]. by intros [= <-].
Qed.

(** What one read can touch: the reader's own dictionary, by adding one
    stub newer than every stub handed out before. *)
Lemma access_footprint x st a d :
  owns (self st) (world st) a d →
  let st' := access lib x st in
  ∃ d',
    owns (self st') (world st') a d' ∧
    cls_stubs (world st') = cls_stubs (world st) ∧
    length (heap (world st')) = length (heap (world st)) ∧
    (∀ b, b ≠ a → heap (world st') !! b = heap (world st) !! b) ∧
    stubs_created (world st) ≤ stubs_created (world st') ∧
    (∀ k s, d !! k = Some s → d' !! k = Some s) ∧
    (∀ k s, d' !! k = Some s →
       d !! k = Some s ∨ stubs_created (world st) ≤ stub_serial s).
Proof.
  intros (Hs & Hd & Hser). destruct x as [|m]; simpl.
  - destruct (grpc_channel lib st) as [r st1] eqn:E. simpl.
    apply grpc_channel_frame in E as (Hs' & _ & _ & Hh' & Hc' & Hn').
    exists d. rewrite Hh', Hn'. split_and!; eauto.
    split_and!; [congruence|by rewrite Hh'|by rewrite Hn'].
  - rewrite stub_of_eq. destruct (d !! method_key m) as [s|] eqn:Hk.
    + rewrite (stub_property_hit _ _ _ _ _ _ d s);
        [|by unfold stubs_dict; rewrite Hs|done].
      exists d. simpl. split_and!; eauto. by split_and!.
    + rewrite (stub_property_miss _ _ _ _ _ _ a d) by done.
      destruct (grpc_channel lib st) as [[e|ch] st1] eqn:E;
        apply grpc_channel_frame in E as (Hs' & _ & _ & Hh' & Hc' & Hn').
      * exists d. simpl. rewrite Hh', Hn'. split_and!; eauto.
        split_and!; [congruence|by rewrite Hh'|by rewrite Hn'].
      * cbn zeta. simpl.
        set (s := new_stub (world st1) ch (method_route m)
                    (method_request m) (method_response m)).
        exists (<[method_key m := s]> d). split_and!; try done.
        -- unfold owns. simpl. split_and!; [congruence|..].
           ++ rewrite list_lookup_alter. case_decide; [|done].
              by rewrite Hh', Hd.
           ++ intros k s'. rewrite lookup_insert.
              case_decide; [intros [= <-]; simpl; lia|].
              intros Hin%Hser. lia.
        -- by rewrite length_alter, Hh'.
        -- intros b Hb. rewrite list_lookup_alter_ne by done.
           by rewrite Hh'.
        -- lia.
        -- intros k s' Hin. rewrite lookup_insert_ne; [done|].
           intros <-. congruence.
        -- intros k s'. rewrite lookup_insert.
           case_decide; [intros [= <-]; simpl; right; lia|]. eauto.
Qed.

Lemma owns_frame o w w' a d :
  owns o w a d → heap w' !! a = heap w !! a →
  stubs_created w ≤ stubs_created w' → owns o w' a d.
Proof.
  intros (Hs & Hd & Hser) Hh Hn. split_and!; [done|congruence|].
  intros k s Hin%Hser. lia.
Qed.

Lemma access2_separate z p : separate p → separate (access2 lib z p).
Proof.
  destruct p as [[o1 o2] w].
  intros (a1 & d1 & a2 & d2 & H1 & H2 & Hne & Hdis).
  destruct z as [[|] x]; simpl.
  - destruct (access_footprint x {| self := o1; world := w |} a1 d1 H1)
      as (d1' & H1' & _ & _ & Hoth & Hn & _ & Hnew).
    exists a1, d1', a2, d2. split_and!; try done.
    + eapply owns_frame; [done|by apply Hoth|done].
    + intros k1 k2 s1 s2 Hk1 Hk2.
      destruct (Hnew _ _ Hk1) as [Hold|Hge]; [by eapply Hdis|].
      destruct H2 as (_ & _ & Hser). apply Hser in Hk2. simpl in *. lia.
  - destruct (access_footprint x {| self := o2; world := w |} a2 d2 H2)
      as (d2' & H2' & _ & _ & Hoth & Hn & _ & Hnew).
    exists a1, d1, a2, d2'. split_and!; try done.
    + eapply owns_frame; [done|by apply Hoth|done].
    + intros k1 k2 s1 s2 Hk1 Hk2.
      destruct (Hnew _ _ Hk2) as [Hold|Hge]; [by eapply Hdis|].
      destruct H1 as (_ & _ & Hser). apply Hser in Hk1. simpl in *. lia.
Qed.

Lemma run2_separate zs p : separate p → separate (run2 lib zs p).
Proof.
  revert p. induction zs as [|z zs IH]; intros p Hp; [done|].
  simpl. by apply IH, access2_separate.
Qed.

Lemma run_owns xs st a d :
  owns (self st) (world st) a d →
  ∃ d', owns (self (run lib xs st)) (world (run lib xs st)) a d' ∧
        length (heap (world (run lib xs st))) = length (heap (world st)) ∧
        cls_stubs (world (run lib xs st)) = cls_stubs (world st).
Proof.
  revert st d. induction xs as [|x xs IH]; intros st d Ho; [by exists d|].
  simpl.
  destruct (access_footprint x st a d Ho) as (d' & Ho' & Hc & Hl & _).
  destruct (IH _ _ Ho') as (d'' & ? & ? & ?).
  exists d''. split_and!; [done|congruence|congruence].
Qed.

(** C10.  A successful constructor call leaves the instance with a
    dictionary of its own, new and empty, and leaves the class-level
    dictionary alone, as do all later reads.  So a second instance,
    constructed after the first has cached any number of stubs, starts
    empty, and however reads of the two are interleaved afterwards their
    caches are different objects and hold no stub in common. *)
Theorem fresh_stub_cache_per_instance a w st1 :
  construct lib a w = (inr (), st1) →
  _stubs (self st1) = Some (length (heap w)) ∧
  heap (world st1) = heap w ++ [∅] ∧
  stubs_dict st1 = Some ∅ ∧
  (∀ xs, cls_stubs (world (run lib xs st1)) = cls_stubs w) ∧
  ∀ xs a2 st2,
    construct lib a2 (world (run lib xs st1)) = (inr (), st2) →
    stubs_dict st2 = Some ∅ ∧
    ∀ zs o1 o2 w',
      run2 lib zs (self (run lib xs st1), self st2, world st2)
        = (o1, o2, w') →
      is_Some (_stubs o1) ∧ is_Some (_stubs o2) ∧ _stubs o1 ≠ _stubs o2 ∧
      ∀ k1 k2 s1 s2,
        cached {| self := o1; world := w' |} k1 = Some s1 →
        cached {| self := o2; world := w' |} k2 = Some s2 →
        s1 ≠ s2.
Proof.
  intros Hc. destruct (construct_fresh a w st1 Hc) as (Hs & Hh & Hcl & Hn).
  assert (Hempty : ∀ hp : list (gmap string Stub),
            (hp ++ [∅]) !! length hp = Some (∅ : gmap string Stub)).
  { intros hp. by rewrite lookup_app_r, Nat.sub_diag by done. }
  assert (Ho : owns (self st1) (world st1) (length (heap w)) ∅).
  { split_and!; [done|by rewrite Hh|]. intros k s. by rewrite lookup_empty. }
  split_and!; [done|done|..].
  - unfold stubs_dict. by rewrite Hs, Hh.
  - intros xs. destruct (run_owns xs st1 _ _ Ho) as (_ & _ & _ & ->). done.
  - intros xs a2 st2 Hc2.
    destruct (run_owns xs st1 _ _ Ho) as (d1 & Ho1 & Hlen & _).
    destruct (construct_fresh a2 _ st2 Hc2) as (Hs2 & Hh2 & _ & Hn2).
    split; [unfold stubs_dict; by rewrite Hs2, Hh2|].
    intros zs o1 o2 w' Hrun.
    assert (Hsep : separate (self (run lib xs st1), self st2, world st2)).
    { exists (length (heap w)), d1, (length (heap (world (run lib xs st1)))), ∅.
      assert (Hlt : length (heap w) < length (heap (world (run lib xs st1)))).
      { rewrite Hlen, Hh, length_app. simpl. lia. }
      split_and!.
      - eapply owns_frame; [done| |lia].
        rewrite Hh2. by rewrite lookup_app_l.
      - split_and!; [done|by rewrite Hh2|].
        intros k s. by rewrite lookup_empty.
      - lia.
      - intros k1 k2 s1 s2 _. by rewrite lookup_empty. }
    apply (run2_separate zs) in Hsep. rewrite Hrun in Hsep.
    destruct Hsep as (a1 & e1 & a2' & e2 & (Hs1' & Hd1' & _) &
                      (Hs2' & Hd2' & _) & Hne & Hdis).
    split_and!; [by rewrite Hs1'|by rewrite Hs2'|congruence|].
    intros k1 k2 s1 s2.
    rewrite (cached_own _ a1 e1), (cached_own _ a2' e2) by done.
    intros Hk1 Hk2 ->. by eapply Hdis.
Qed.
End Sharing.

(** ** The statements at sample values *)

(** The class-level dictionary is a single object: two objects that never
    ran line 189 would see each other's stubs. *)
Example class_level_dictionary_is_shared :
  let o := assign_base DEFAULT_HOST cred_None new_object in
  let st := access sample_library (read_stub SignBlob)
              {| self := o; world := empty_world |} in
  is_Some (cached {| self := new_object; world := world st |} "sign_blob").
Proof. vm_compute. eauto. Qed.

(** On a new instance the first read of [sign_blob] creates the channel
    and one stub, caches the stub under ["sign_blob"] and returns it; a
    later read, after a read of another property, returns that stub. *)
Lemma stub_created_once_and_reused_witness :
  let st1 := (construct sample_library no_args empty_world).2 in
  construct sample_library no_args empty_world = (inr (), st1) ∧
  ∃ s st3,
    stub_of sample_library SignBlob st1 = (inr s, st3) ∧
    stub_serial s = 0 ∧
    cached st1 "sign_blob" = None ∧
    cached st3 "sign_blob" = Some s ∧
    requests SignBlob (trace (world st3)) = 1 ∧
    stubs_created (world st3) = 1 ∧
    stub_of sample_library SignBlob
      (run sample_library [read_stub SignJwt] st3)
    = (inr s, run sample_library [read_stub SignJwt] st3).
Proof.
  split; [reflexivity|].
  destruct (stub_created_once_and_reused sample_library no_args empty_world
              _ [] SignBlob eq_refl) as (_ & _ & Hlater & Hfirst & _ & _).
  destruct (Hfirst _ _ eq_refl eq_refl)
    as (s & st3 & E & Hserial & _ & Hcached & _ & Hreq & Hn).
  exists s, st3. split; [exact E|].
  split; [exact Hserial|]. split; [reflexivity|]. split; [exact Hcached|].
  split; [exact Hreq|]. split; [exact Hn|].
  destruct (Hlater s st3 E) as (_ & _ & Hsame).
  exact (Hsame [read_stub SignJwt]).
Defined.

Lemma channel_created_at_most_once_witness :
  let st1 := (construct sample_library no_args empty_world).2 in
  construct sample_library no_args empty_world = (inr (), st1) ∧
  channels_created
    (world (run sample_library
              [read_grpc_channel; read_stub SignBlob; read_grpc_channel]
              st1)) ≤ 1.
Proof.
  split; [reflexivity|].
  destruct (channel_created_at_most_once sample_library no_args empty_world
              _ [read_grpc_channel; read_stub SignBlob; read_grpc_channel]
              eq_refl) as (H & _).
  exact H.
Defined.

(** On a new instance, after a read of another property, [sign_jwt]
    returns a callable, on the channel [grpc_channel] returns, under the
    route [.../SignJwt]. *)
Lemma stubs_bound_to_fixed_routes_witness :
  let st1 := (construct sample_library no_args empty_world).2 in
  let st2 := run sample_library [read_stub SignBlob] st1 in
  construct sample_library no_args empty_world = (inr (), st1) ∧
  ∃ ch s st3,
    grpc_channel sample_library st2 = (inr ch, st2) ∧
    sign_jwt sample_library st2 = (inr s, st3) ∧
    stub_channel s = ch ∧
    stub_route s = "/google.iam.credentials.v1.IAMCredentials/SignJwt" ∧
    call_unary_unary ch "/google.iam.credentials.v1.IAMCredentials/SignJwt"
      SignJwtRequest SignJwtResponse ∈ trace (world st3).
Proof.
  split; [reflexivity|].
  destruct (stubs_bound_to_fixed_routes sample_library no_args empty_world
              _ [read_stub SignBlob] eq_refl) as (_ & _ & _ & [_ H] & _).
  destruct (H _ _ eq_refl) as (s & st3 & E & Hch & Hroute & _ & Hcall).
  eexists _, s, st3. split; [reflexivity|]. split; [exact E|].
  split; [exact Hch|]. split; [exact Hroute|].
  rewrite Hch in Hcall. exact Hcall.
Defined.

Lemma default_host_unless_mtls_endpoint_witness :
  arg_host no_args = None ∧
  base_hosts
    (trace (world (construct sample_library no_args empty_world).2))
  = ["iamcredentials.googleapis.com"].
Proof.
  split; [reflexivity|].
  destruct (default_host_unless_mtls_endpoint sample_library no_args
              empty_world eq_refl) as (_ & H).
  simpl in H. exact (proj2 H).
Defined.

Lemma duplicate_credentials_rejected_witness :
  arg_credentials duplicate_args = cred_Object 1 ∧
  arg_credentials_file duplicate_args = Some "key.json" ∧
  arg_channel duplicate_args = None ∧
  truthy_str (arg_api_mtls_endpoint duplicate_args) = false ∧
  (construct sample_library duplicate_args empty_world).1
  = inl DuplicateCredentialArgs.
Proof.
  do 4 (split; [reflexivity|]).
  destruct (duplicate_credentials_rejected sample_library duplicate_args
              empty_world 1 "key.json" eq_refl eq_refl eq_refl)
    as (_ & _ & _ & H & _).
  exact (proj1 (H eq_refl)).
Defined.

Lemma mtls_endpoint_overrides_host_witness :
  let r := construct sample_library mtls_cert_args empty_world in
  arg_channel mtls_cert_args = None ∧
  arg_api_mtls_endpoint mtls_cert_args
  = Some "iamcredentials.mtls.googleapis.com:8443" ∧
  "iamcredentials.mtls.googleapis.com:8443" ≠ "" ∧
  arg_host mtls_cert_args = Some "ignored.example.com" ∧
  r = (inr (), r.2) ∧
  channel_hosts (trace (world r.2))
  = [mtls_host "iamcredentials.mtls.googleapis.com:8443"] ∧
  ∃ ssl, _grpc_channel (self r.2)
         = Some (Created 0 "iamcredentials.mtls.googleapis.com:8443"
                   (Some ssl)).
Proof.
  assert (Hne : "iamcredentials.mtls.googleapis.com:8443" ≠ "")
    by discriminate.
  do 2 (split; [reflexivity|]). split; [exact Hne|].
  do 2 (split; [reflexivity|]).
  destruct (mtls_endpoint_overrides_host sample_library mtls_cert_args
              empty_world _ eq_refl eq_refl Hne) as (_ & _ & H & Hok & _).
  split; [exact (H _ _ eq_refl)|exact (Hok _ eq_refl)].
Defined.

Lemma mtls_ssl_credentials_source_witness :
  let r := construct sample_library mtls_cert_args empty_world in
  arg_channel mtls_cert_args = None ∧
  arg_api_mtls_endpoint mtls_cert_args
  = Some "iamcredentials.mtls.googleapis.com:8443" ∧
  "iamcredentials.mtls.googleapis.com:8443" ≠ "" ∧
  count_calls is_cert_source_call (trace (world r.2)) = 1 ∧
  _grpc_channel (self r.2)
  = Some (Created 0 "iamcredentials.mtls.googleapis.com:8443"
            (Some (ssl_from_pair (sample_cert_source ()).1
                     (sample_cert_source ()).2))).
Proof.
  assert (Hne : "iamcredentials.mtls.googleapis.com:8443" ≠ "")
    by discriminate.
  do 2 (split; [reflexivity|]). split; [exact Hne|].
  pose proof (mtls_ssl_credentials_source sample_library mtls_cert_args
                empty_world _ eq_refl eq_refl Hne) as H.
  simpl in H. destruct H as (Hcount & _ & Hok).
  split; [exact Hcount|exact (Hok _ eq_refl)].
Defined.

Lemma mtls_endpoint_default_port_witness :
  arg_channel mtls_cert_args = None ∧
  arg_api_mtls_endpoint mtls_cert_args
  = Some "iamcredentials.mtls.googleapis.com:8443" ∧
  "iamcredentials.mtls.googleapis.com:8443" ≠ "" ∧
  hd ""
    (channel_hosts
       (trace
          (world (construct sample_library mtls_cert_args empty_world).2)))
  = "iamcredentials.mtls.googleapis.com:8443".
Proof.
  assert (Hne : "iamcredentials.mtls.googleapis.com:8443" ≠ "")
    by discriminate.
  do 2 (split; [reflexivity|]). split; [exact Hne|].
  destruct (mtls_endpoint_default_port sample_library mtls_cert_args
              empty_world _ eq_refl eq_refl Hne) as (_ & H).
  destruct (H _ _ eq_refl) as (_ & _ & Hyes & _).
  apply Hyes. exists "iamcredentials.mtls.googleapis.com", "8443".
  reflexivity.
Defined.

Lemma supplied_channel_takes_precedence_witness :
  arg_channel channel_args = Some (Supplied 7) ∧
  ∀ st1, construct sample_library channel_args empty_world = (inr (), st1) →
         _grpc_channel (self st1) = Some (Supplied 7).
Proof.
  split; [reflexivity|].
  destruct (supplied_channel_takes_precedence sample_library channel_args
              empty_world _ eq_refl) as (_ & _ & _ & _ & H).
  exact H.
Defined.

Lemma fresh_stub_cache_per_instance_witness :
  let st1 := (construct sample_library no_args empty_world).2 in
  construct sample_library no_args empty_world = (inr (), st1) ∧
  stubs_dict st1 = Some ∅.
Proof.
  split; [reflexivity|].
  destruct (fresh_stub_cache_per_instance sample_library no_args empty_world
              _ eq_refl) as (_ & _ & H & _).
  exact H.
Defined.

(** * Further properties of the module *)

Section Reads.
Context (lib : Library).

Lemma char_in_app c s1 s2 :
  char_in c (s1 +:+ s2) = char_in c s1 || char_in c s2.
Proof.
  induction s1 as [|c' s1 IH]; simpl; [done|]. by rewrite IH, orb_assoc.
Qed.

(** X10.  The host computed on lines 154-158 always contains a [":"],
    so computing it again changes nothing. *)
Theorem mtls_host_has_port ep :
  char_in ":" (mtls_host ep) = true ∧ mtls_host (mtls_host ep) = mtls_host ep.
Proof.
  assert (H : char_in ":" (mtls_host ep) = true).
  { unfold mtls_host. destruct (char_in ":" ep) eqn:E; [done|].
    rewrite char_in_app. simpl. by rewrite orb_true_r. }
  split; [done|]. unfold mtls_host at 1. by rewrite H.
Qed.

(** What a read of [grpc_channel] adds to the trace, in any state. *)
Lemma grpc_channel_calls st :
  ∃ new, trace (world (grpc_channel lib st).2) = new ++ trace (world st) ∧
         Forall (λ c, is_read_call c = true) new.
Proof.
  destruct st as [[gc sd ho cr] w]. destruct gc as [ch|].
  { exists []. by rewrite (grpc_channel_stored _ _ ch). }
  destruct ho as [h|]; [|by exists []].
  destruct cr as [c|]; [|by exists []].
  rewrite (grpc_channel_lazy _ _ h c) by done.
  exists [lazy_call lib h c]. destruct (lib_error _ _ _); simpl; split;
    try done; by repeat constructor.
Qed.

(** What a read of a stub property adds to the trace, in any state; the
    instance attribute [_stubs] is never rebound. *)
Lemma stub_property_calls key route rq rs st r st' :
  stub_property lib key route rq rs st = (r, st') →
  _stubs (self st') = _stubs (self st) ∧
  ∃ new, trace (world st') = new ++ trace (world st) ∧
         Forall (λ c, is_read_call c = true) new.
Proof.
  unfold stub_property, bind at 1. unfold load_stubs at 1.
  destruct (stubs_dict st) as [d|] eqn:Hd.
  2:{ intros [= <- <-]. split; [done|by exists []]. }
  destruct (d !! key) as [s|] eqn:Hk.
  - unfold bind, ret, load_stubs. rewrite Hd, Hk. intros [= <- <-].
    split; [done|by exists []].
  - unfold bind at 1. unfold bind at 1.
    destruct (grpc_channel_calls st) as (new & Hnew & Hall).
    destruct (grpc_channel lib st) as [[e|ch] st1] eqn:G; simpl in Hnew.
    + apply grpc_channel_frame in G as (? & _). intros [= <- <-]. eauto.
    + apply grpc_channel_frame in G as (Hs & _).
      unfold bind, in_world, unary_unary, bind, log, modify,
        next_stub_serial, ret, store_stub, load_stubs. simpl.
      set (st2 := {| self := self st1; world := _ |}).
      assert (Ht : trace (world st2) =
                   (call_unary_unary ch route rq rs :: new) ++ trace (world st)).
      { subst st2. simpl. destruct (_stubs (self st1)); simpl; by rewrite Hnew. }
      assert (Hall' : Forall (λ c, is_read_call c = true)
                        (call_unary_unary ch route rq rs :: new))
        by by constructor.
      destruct (stubs_dict st2) as [d2|]; [destruct (d2 !! key)|];
        intros [= <- <-]; eauto.
Qed.

Lemma access_calls x st :
  ∃ new, trace (world (access lib x st)) = new ++ trace (world st) ∧
         Forall (λ c, is_read_call c = true) new.
Proof.
  destruct x as [|m]; simpl; [apply grpc_channel_calls|].
  rewrite stub_of_eq.
  destruct (stub_property lib _ _ _ _ st) as [r st'] eqn:E.
  by destruct (stub_property_calls _ _ _ _ _ _ _ E).
Qed.

Lemma run_calls xs st :
  ∃ new, trace (world (run lib xs st)) = new ++ trace (world st) ∧
         Forall (λ c, is_read_call c = true) new.
Proof.
  revert st. induction xs as [|x xs IH]; intros st; [by exists []|].
  simpl. destruct (access_calls x st) as (n1 & H1 & F1).
  destruct (IH (access lib x st)) as (n2 & H2 & F2).
  exists (n2 ++ n1). rewrite H2, H1, app_assoc. split; [done|].
  by apply Forall_app.
Qed.

Lemma count_calls_none p q new :
  (∀ c, q c = true → p c = false) →
  Forall (λ c, q c = true) new → count_calls p new = 0.
Proof.
  intros Hpq. induction 1 as [|c new Hc _ IH]; simpl; [done|].
  by rewrite (Hpq c Hc), IH.
Qed.

(** The calls of a constructor run, oldest last. *)
Lemma channel_hosts_app t1 t2 :
  channel_hosts (t1 ++ t2) = channel_hosts t1 ++ channel_hosts t2.
Proof.
  induction t1 as [|c t1 IH]; simpl; [done|]. destruct c; simpl; by rewrite ?IH.
Qed.

Lemma base_hosts_app t1 t2 :
  base_hosts (t1 ++ t2) = base_hosts t1 ++ base_hosts t2.
Proof.
  induction t1 as [|c t1 IH]; simpl; [done|]. destruct c; simpl; by rewrite ?IH.
Qed.

Lemma ssl_step_failure_no_base src w code made :
  ssl_step_failure lib src w = Some (code, made) →
  count_calls is_base_call made = 0.
Proof.
  destruct src as [f|]; simpl.
  - destruct (lib_error lib (trace w) call_client_cert_source);
      [by intros [= <- <-]|].
    destruct (lib_error lib (_ :: trace w) _); [|done].
    by intros [= <- <-].
  - destruct (lib_error lib (trace w) call_SslCredentials); [|done].
    by intros [= <- <-].
Qed.

Lemma construct_trace a w :
  ∃ new, trace (world (construct lib a w).2) = new ++ trace w ∧
    ((∃ cr, new = [base_call lib a (default DEFAULT_HOST (arg_host a)) cr]) ∨
     (∃ ep, arg_api_mtls_endpoint a = Some ep ∧
        (new = mtls_call lib a ep :: ssl_calls (arg_client_cert_source a) ∨
         new = base_call lib a (mtls_host ep) (arg_credentials a) ::
               mtls_call lib a ep :: ssl_calls (arg_client_cert_source a))) ∨
     (∃ code,
        ssl_step_failure lib (arg_client_cert_source a) w
        = Some (code, new))).
Proof.
  destruct (arg_channel a) as [ch|] eqn:Hch.
  - rewrite (construct_supplied lib a w ch) by done. unfold base_outcome.
    simpl. eexists [_]. split; [by destruct (lib_error _ _ _)|]. eauto.
  - destruct (truthy_str (arg_api_mtls_endpoint a)) eqn:Hep.
    + apply truthy_str_Some in Hep as (ep & Hep & Hne).
      rewrite (construct_mtls lib a w ep) by done. cbn zeta.
      unfold base_outcome.
      destruct (ssl_step_failure lib (arg_client_cert_source a) w)
        as [[code made]|] eqn:Hssl.
      { exists made. split; [done|]. right. right. eauto. }
      destruct (duplicate_credential_args _ _);
        [|destruct (lib_error lib _ (mtls_call lib a ep));
          [|destruct (lib_error lib _ (base_call lib a _ _))]]; simpl.
      * eexists (_ :: _). split; [done|]. right. left. eauto.
      * eexists (_ :: _). split; [done|]. right. left. eauto.
      * eexists (_ :: _ :: _). split; [done|]. right. left. eauto.
      * eexists (_ :: _ :: _). split; [done|]. right. left. eauto.
    + rewrite (construct_plain lib a w) by done. unfold base_outcome.
      eexists [_]. split; [|eauto].
      destruct (duplicate_credential_args _ _); [done|].
      by destruct (lib_error _ _ _).
Qed.

(** X11.  Property reads, in any state and any number, only ever call
    the channel factory (with host and credentials alone) and
    [unary_unary]: the base constructor, the SSL credential builders and
    the [client_cert_source] callback are never called again.  Over
    construction and all later reads the callback runs at most once and
    the base constructor at most once. *)
Theorem reads_make_only_read_calls a w xs :
  let st1 := (construct lib a w).2 in
  let st2 := run lib xs st1 in
  (∃ new, trace (world st2) = new ++ trace (world st1) ∧
          Forall (λ c, is_read_call c = true) new) ∧
  count_calls is_cert_source_call (trace (world st2)) =
    count_calls is_cert_source_call (trace (world st1)) ∧
  count_calls is_base_call (trace (world st2)) =
    count_calls is_base_call (trace (world st1)) ∧
  count_calls is_cert_source_call (trace (world st2)) ≤
    S (count_calls is_cert_source_call (trace w)) ∧
  count_calls is_base_call (trace (world st2)) ≤
    S (count_calls is_base_call (trace w)).
Proof.
  intros st1 st2.
  destruct (run_calls xs st1) as (new & Hnew & Hall). fold st2 in Hnew.
  assert (H1 : count_calls is_cert_source_call new = 0).
  { eapply count_calls_none; [|done]. by intros []. }
  assert (H2 : count_calls is_base_call new = 0).
  { eapply count_calls_none; [|done]. by intros []. }
  rewrite Hnew, !count_calls_app, H1, H2. simpl.
  split_and!; [by exists new|done|done|..].
  - subst st1. destruct (construct_trace a w) as (n & -> & Hshape).
    rewrite count_calls_app.
    destruct Hshape as [[cr ->]|[(ep & _ & [->| ->])|[code Hssl]]];
      [simpl; destruct (arg_client_cert_source a); simpl; lia..|].
    apply ssl_step_failure_made in Hssl as (_ & _ & _ & _ & _ & ? & _). lia.
  - subst st1. destruct (construct_trace a w) as (n & -> & Hshape).
    rewrite count_calls_app.
    destruct Hshape as [[cr ->]|[(ep & _ & [->| ->])|[code Hssl]]];
      [simpl; destruct (arg_client_cert_source a); simpl; lia..|].
    apply ssl_step_failure_no_base in Hssl. lia.
Qed.

(** X1.  Whatever the branch and the outcome, every call of the
    constructor that takes a credentials file, scopes and a quota project
    is handed the constructor's own [credentials_file] and
    [quota_project_id], and the same scopes: the [scopes] argument, or
    [AUTH_SCOPES] when that is [None] or empty.  It makes at most one
    channel request and at most one base-constructor call. *)
Theorem constructor_forwards_arguments a w :
  ∃ new, trace (world (construct lib a w).2) = new ++ trace w ∧
    (∀ c x, c ∈ new → call_forwarded c = Some x →
       x = (arg_credentials_file a,
            match arg_scopes a with
            | None | Some [] => AUTH_SCOPES lib
            | Some l => l
            end,
            arg_quota_project_id a)) ∧
    length (channel_hosts new) ≤ 1 ∧ length (base_hosts new) ≤ 1.
Proof.
  destruct (construct_trace a w) as (new & Hnew & Hshape).
  exists new. split; [done|].
  destruct Hshape as [[cr ->]|[(ep & _ & [->| ->])|[code Hssl]]].
  4:{ apply ssl_step_failure_made in Hssl as (_ & _ & -> & -> & Hall & _).
      split_and!; [|simpl; lia..].
      intros c x Hin. rewrite Forall_forall in Hall.
      rewrite (Hall c Hin). done. }
  - split_and!; [|simpl; lia..].
    intros c x [->|[]%elem_of_nil]%elem_of_cons. by intros [= <-].
  - split_and!; [|destruct (arg_client_cert_source a); simpl; lia..].
    intros c x [->|Hin]%elem_of_cons; [by intros [= <-]|].
    destruct (arg_client_cert_source a); simpl in Hin;
      rewrite ?elem_of_cons, elem_of_nil in Hin;
      destruct Hin as [->|Hin]; try done; by destruct Hin as [->|[]].
  - split_and!; [|destruct (arg_client_cert_source a); simpl; lia..].
    intros c x [->|[->|Hin]%elem_of_cons]%elem_of_cons;
      [by intros [= <-]..|].
    destruct (arg_client_cert_source a); simpl in Hin;
      rewrite ?elem_of_cons, elem_of_nil in Hin;
      destruct Hin as [->|Hin]; try done; by destruct Hin as [->|[]].
Qed.
End Reads.

Section Errors.
Context (lib : Library).

(** A read rebinds at most [_grpc_channel], and only when it was unset and
    the read succeeded. *)
Lemma grpc_channel_self st r st1 :
  grpc_channel lib st = (r, st1) →
  (self st1 = self st ∧ (is_Some (_grpc_channel (self st)) ∨ ∃ e, r = inl e)) ∨
  (_grpc_channel (self st) = None ∧
   ∃ ch, r = inr ch ∧ self st1 = assign_grpc_channel ch (self st)).
Proof.
  destruct st as [[gc sd ho cr] w]. destruct gc as [ch|].
  { rewrite (grpc_channel_stored _ _ ch) by done. intros [= <- <-].
    left. eauto. }
  destruct ho as [h|]; [|intros [= <- <-]; left; eauto].
  destruct cr as [c|]; [|intros [= <- <-]; left; eauto].
  rewrite (grpc_channel_lazy _ _ h c) by done.
  destruct (lib_error _ _ _); intros [= <- <-]; [left|right]; eauto.
Qed.

Lemma stub_of_self a w st m r st1 :
  Live a w st → stub_of lib m st = (r, st1) →
  self st1 = self st ∨
  (_grpc_channel (self st) = None ∧
   ∃ ch, self st1 = assign_grpc_channel ch (self st)).
Proof.
  intros HL E. rewrite stub_of_eq in E.
  pose proof HL as [_ _ _ (addr & d & Hs & _ & Hd & _) _].
  destruct (d !! method_key m) as [s|] eqn:Hk.
  - rewrite (stub_property_hit _ _ _ _ _ _ d s) in E;
      [|by unfold stubs_dict; rewrite Hs|done].
    injection E as <- <-. by left.
  - rewrite (stub_property_miss _ _ _ _ _ _ addr d) in E by done.
    destruct (grpc_channel lib st) as [[e|ch] st'] eqn:G;
      apply grpc_channel_self in G; cbn zeta in E; injection E as <- <-;
      simpl; destruct G as [[-> _]|(? & ? & _ & ->)]; eauto.
Qed.

Lemma access_base a w x st :
  Live a w st →
  _host (self (access lib x st)) = _host (self st) ∧
  _credentials (self (access lib x st)) = _credentials (self st).
Proof.
  intros HL. destruct x as [|m]; simpl.
  - destruct (grpc_channel lib st) as [r st1] eqn:E.
    by apply grpc_channel_frame in E as (_ & ? & ? & _).
  - destruct (stub_of lib m st) as [r st1] eqn:E. simpl.
    destruct (stub_of_self a w _ _ _ _ HL E) as [->|(_ & ch & ->)]; done.
Qed.

Lemma run_base a w xs st :
  Live a w st →
  _host (self (run lib xs st)) = _host (self st) ∧
  _credentials (self (run lib xs st)) = _credentials (self st).
Proof.
  revert st. induction xs as [|x xs IH]; intros st HL; [done|]. simpl.
  destruct (IH (access lib x st)) as [-> ->]; [by apply access_live|].
  by apply (access_base a w).
Qed.

(** X3.  On a constructed instance a property read can only fail with the
    library's error from the channel request it made, and only while no
    channel is stored.  A failed read leaves every attribute of the
    instance, its cache and both counters as they were, and asks for no
    stub; nothing of the failure is remembered, so the next read asks the
    library again. *)
Theorem failed_read_changes_nothing a w st1 xs :
  construct lib a w = (inr (), st1) →
  let st2 := run lib xs st1 in
  let unchanged (st3 : State) :=
    _grpc_channel (self st2) = None ∧
    self st3 = self st2 ∧
    heap (world st3) = heap (world st2) ∧
    channels_created (world st3) = channels_created (world st2) ∧
    stubs_created (world st3) = stubs_created (world st2) ∧
    ∃ c, trace (world st3) = c :: trace (world st2) ∧
         is_read_call c = true ∧ takes_credentials c = true in
  (∀ e st3, grpc_channel lib st2 = (inl e, st3) →
     (∃ code, e = LibraryError code) ∧ unchanged st3) ∧
  (∀ m e st3, stub_of lib m st2 = (inl e, st3) →
     (∃ code, e = LibraryError code) ∧ unchanged st3 ∧
     grpc_channel lib st2 = (inl e, st3)).
Proof.
  intros Hc st2 unchanged.
  assert (HL : Live a w st2)
    by (apply run_live; by apply (construct_live lib)).
  pose proof HL as [[h Hh] [c Hcr] _ (addr & d & Hs & _ & Hd & Hent) _].
  assert (Hgc : ∀ e st3, grpc_channel lib st2 = (inl e, st3) →
            (∃ code, e = LibraryError code) ∧ unchanged st3).
  { intros e st3 E.
    destruct (_grpc_channel (self st2)) as [ch|] eqn:Hg.
    { by rewrite (grpc_channel_stored _ _ ch) in E. }
    rewrite (grpc_channel_lazy _ _ h c) in E by done.
    destruct (lib_error _ _ _) as [code|]; [|done].
    injection E as <- <-. split; [eauto|].
    unfold unchanged. split_and!; try done.
    by exists (lazy_call lib h c). }
  split; [done|].
  intros m e st3 E. rewrite stub_of_eq in E.
  destruct (d !! method_key m) as [s|] eqn:Hk.
  - rewrite (stub_property_hit _ _ _ _ _ _ d s) in E;
      [done|by unfold stubs_dict; rewrite Hs|done].
  - rewrite (stub_property_miss _ _ _ _ _ _ addr d) in E by done.
    destruct (grpc_channel lib st2) as [[e'|ch] st'] eqn:G; [|done].
    injection E as <- <-. by destruct (Hgc _ _ eq_refl).
Qed.
End Errors.

Section Stubs.
Context (lib : Library).

Lemma access_channel_hosts a w x st ch :
  Live a w st → _grpc_channel (self st) = Some ch →
  channel_hosts (trace (world (access lib x st))) =
  channel_hosts (trace (world st)).
Proof.
  intros HL Hg. destruct x as [|m]; simpl.
  - by rewrite (grpc_channel_stored _ _ ch).
  - rewrite stub_of_eq.
    pose proof HL as [_ _ _ (addr & d & Hs & _ & Hd & _) _].
    destruct (d !! method_key m) as [s|] eqn:Hk.
    + rewrite (stub_property_hit _ _ _ _ _ _ d s);
        [done|by unfold stubs_dict; rewrite Hs|done].
    + rewrite (stub_property_miss _ _ _ _ _ _ addr d) by done.
      by rewrite (grpc_channel_stored _ _ ch).
Qed.

Lemma run_channel_hosts a w xs st ch :
  Live a w st → _grpc_channel (self st) = Some ch →
  channel_hosts (trace (world (run lib xs st))) =
  channel_hosts (trace (world st)).
Proof.
  revert st. induction xs as [|x xs IH]; intros st HL Hg; [done|]. simpl.
  rewrite IH; [by eapply access_channel_hosts|by apply access_live|].
  by eapply access_channel.
Qed.

(** With a channel stored, a stub read cannot fail. *)
Lemma stub_of_with_channel a w st m ch :
  Live a w st → _grpc_channel (self st) = Some ch →
  ∃ s st', stub_of lib m st = (inr s, st') ∧ stub_channel s = ch.
Proof.
  intros HL Hg. rewrite stub_of_eq.
  pose proof HL as [_ _ _ (addr & d & Hs & _ & Hd & Hent) _].
  specialize (Hent m).
  destruct (d !! method_key m) as [s|] eqn:Hk.
  - rewrite (stub_property_hit _ _ _ _ _ _ d s);
      [|by unfold stubs_dict; rewrite Hs|done].
    exists s, st. split; [done|].
    destruct Hent as (_ & _ & _ & _ & Hch & _). congruence.
  - rewrite (stub_property_miss _ _ _ _ _ _ addr d) by done.
    rewrite (grpc_channel_stored _ _ ch) by done. cbn zeta. eauto.
Qed.

(** X4.  Once the instance holds a channel (supplied, built for the
    mutual-TLS endpoint, or built by an earlier read), no later read asks
    the library for a channel again, and every stub property read
    succeeds, whatever the library would answer, with a stub on that
    channel. *)
Theorem reads_succeed_once_channel_stored a w st1 xs ch :
  construct lib a w = (inr (), st1) →
  let st2 := run lib xs st1 in
  _grpc_channel (self st2) = Some ch →
  ∀ ys, let st3 := run lib ys st2 in
    channel_hosts (trace (world st3)) = channel_hosts (trace (world st2)) ∧
    ∀ m, ∃ s st4, stub_of lib m st3 = (inr s, st4) ∧ stub_channel s = ch.
Proof.
  intros Hc st2 Hg ys st3.
  assert (HL : Live a w st2)
    by (apply run_live; by apply (construct_live lib)).
  split; [by eapply run_channel_hosts|].
  intros m. apply (stub_of_with_channel a w); [by apply run_live|].
  by eapply run_channel.
Qed.

(** X5.  All stubs an instance hands out are on one channel, the one
    [grpc_channel] returns; reads of the same property return the same
    stub and reads of different properties different stubs. *)
Theorem stubs_share_the_channel a w st1 xs ys m1 m2 s1 s2 st3 st4 :
  construct lib a w = (inr (), st1) →
  stub_of lib m1 (run lib xs st1) = (inr s1, st3) →
  stub_of lib m2 (run lib ys st3) = (inr s2, st4) →
  stub_channel s1 = stub_channel s2 ∧
  grpc_channel lib st4 = (inr (stub_channel s1), st4) ∧
  (m1 = m2 ↔ s1 = s2).
Proof.
  intros Hc E1 E2.
  assert (HL : Live a w (run lib xs st1))
    by (apply run_live; by apply (construct_live lib)).
  destruct (stub_of_live lib a w _ _ _ _ HL E1) as (HL3 & Hin1 & _ & _).
  destruct (stub_of_entry lib a w _ _ _ _ HL E1) as (Hr1 & _ & _ & Hg3 & _).
  assert (HL3' : Live a w (run lib ys st3)) by by apply run_live.
  assert (Hg3' : _grpc_channel (self (run lib ys st3)) = Some (stub_channel s1))
    by by eapply run_channel.
  destruct (stub_of_entry lib a w _ _ _ _ HL3' E2) as (Hr2 & _ & _ & Hg4 & _).
  assert (Hg4' : _grpc_channel (self st4) = Some (stub_channel s1))
    by by eapply stub_of_channel.
  split_and!.
  - congruence.
  - by apply grpc_channel_stored.
  - split.
    + intros <-.
      assert (Hk : cached (run lib ys st3) (method_key m1) = Some s1)
        by (eapply run_cached; eauto).
      destruct (stub_of_live lib a w _ _ _ _ HL3' E2) as (_ & _ & Hhit & _).
      destruct (Hhit s1 Hk) as [[= ->] _]. done.
    + intros <-. rewrite Hr1 in Hr2.
      pose proof (route_eqb m2 m1) as Hb. rewrite Hr2, String.eqb_refl in Hb.
      symmetry in Hb. by apply bool_decide_eq_true in Hb.
Qed.
End Stubs.

Section Cache.
Context (lib : Library).

(** A stub read writes the entry of its own method and no other. *)
Lemma stub_of_other_keys a w st m r st1 k :
  Live a w st → stub_of lib m st = (r, st1) → k ≠ method_key m →
  cached st1 k = cached st k.
Proof.
  intros HL E Hk. rewrite stub_of_eq in E.
  pose proof HL as [_ _ _ (addr & d & Hs & _ & Hd & _) _].
  destruct (d !! method_key m) as [s|] eqn:Hm.
  - rewrite (stub_property_hit _ _ _ _ _ _ d s) in E;
      [|by unfold stubs_dict; rewrite Hs|done].
    by injection E as <- <-.
  - rewrite (stub_property_miss _ _ _ _ _ _ addr d) in E by done.
    destruct (grpc_channel lib st) as [[e|ch] st'] eqn:G;
      apply grpc_channel_frame in G as (Hs' & _ & _ & Hh' & Hc' & _);
      cbn zeta in E; injection E as <- <-.
    + by apply cached_frame.
    + rewrite (cached_own st addr d) by done.
      unfold cached, stubs_dict. simpl. rewrite Hs', Hs. simpl.
      rewrite list_lookup_alter. case_decide; [|done].
      rewrite Hh', Hd. simpl. by rewrite lookup_insert_ne.
Qed.

Lemma run_keys a w xs st :
  Live a w st →
  (∀ k s, cached st k = Some s → ∃ m, k = method_key m) →
  ∀ k s, cached (run lib xs st) k = Some s → ∃ m, k = method_key m.
Proof.
  revert st. induction xs as [|x xs IH]; intros st HL Hkeys; [done|].
  simpl. apply IH; [by apply access_live|].
  intros k s. destruct x as [|m]; simpl.
  - destruct (grpc_channel lib st) as [r st1] eqn:E.
    apply grpc_channel_frame in E as (? & _ & _ & ? & ? & _). simpl.
    rewrite (cached_frame st st1) by done. apply Hkeys.
  - destruct (stub_of lib m st) as [r st1] eqn:E. simpl.
    destruct (decide (k = method_key m)) as [->|Hne]; [eauto|].
    rewrite (stub_of_other_keys a w _ _ _ _ _ HL E Hne). apply Hkeys.
Qed.

Lemma size_difference_singleton_le (x : string) (Y : gset string) :
  size ({[x]} ∖ Y) ≤ 1.
Proof.
  rewrite <- (size_singleton (C:=gset string) x).
  apply subseteq_size, subseteq_difference_l. reflexivity.
Qed.

(** X6.  The cache of a constructed instance only ever holds entries under
    the four method names, each a stub for the route of its method, so it
    never holds more than four; reading one property leaves the entries of
    the others as they are, and reading [grpc_channel] leaves them all. *)
Theorem cache_holds_only_method_keys a w st1 xs :
  construct lib a w = (inr (), st1) →
  let st2 := run lib xs st1 in
  (∀ k s, cached st2 k = Some s →
     ∃ m, k = method_key m ∧ stub_route s = method_route m) ∧
  (∃ d, stubs_dict st2 = Some d ∧ size d ≤ 4) ∧
  (∀ m k, k ≠ method_key m →
     cached (access lib (read_stub m) st2) k = cached st2 k) ∧
  (∀ k, cached (access lib read_grpc_channel st2) k = cached st2 k).
Proof.
  intros Hc st2.
  assert (HL1 : Live a w st1) by by apply (construct_live lib).
  assert (HL : Live a w st2) by by apply run_live.
  assert (Hkeys : ∀ k s, cached st2 k = Some s → ∃ m, k = method_key m).
  { apply (run_keys a w); [done|]. intros k s.
    destruct (construct_fresh lib a w st1 Hc) as (Hs & Hh & _).
    unfold cached, stubs_dict. rewrite Hs, Hh.
    rewrite lookup_app_r, Nat.sub_diag by done. simpl.
    by rewrite lookup_empty. }
  pose proof HL as [_ _ _ (addr & d & Hs & _ & Hd & Hent) _].
  split_and!.
  - intros k s Hk. destruct (Hkeys k s Hk) as [m ->]. exists m. split; [done|].
    specialize (Hent m). rewrite (cached_own st2 addr d) in Hk by done.
    rewrite Hk in Hent. by destruct Hent as (_ & ? & _).
  - exists d. split; [by unfold stubs_dict; rewrite Hs|].
    rewrite <- size_dom.
    assert (Hsub : dom d ⊆ ({[ method_key GenerateAccessToken;
                               method_key GenerateIdToken;
                               method_key SignBlob;
                               method_key SignJwt ]} : gset string)).
    { intros k [s Hk]%elem_of_dom.
      rewrite <- (cached_own st2 addr d) in Hk by done.
      destruct (Hkeys k s Hk) as [[] ->]; set_solver. }
    etrans; [apply subseteq_size, Hsub|].
    rewrite !size_union_alt, size_singleton.
    pose proof (size_difference_singleton_le (method_key GenerateIdToken)
      {[method_key GenerateAccessToken]}).
    pose proof (size_difference_singleton_le (method_key SignBlob)
      {[method_key GenerateAccessToken; method_key GenerateIdToken]}).
    pose proof (size_difference_singleton_le (method_key SignJwt)
      {[method_key GenerateAccessToken; method_key GenerateIdToken;
        method_key SignBlob]}).
    lia.
  - intros m k Hne. simpl.
    destruct (stub_of lib m st2) as [r st3] eqn:E.
    by apply (stub_of_other_keys a w _ _ _ _ _ HL E).
  - intros k. simpl. destruct (grpc_channel lib st2) as [r st3] eqn:E.
    apply grpc_channel_frame in E as (? & _ & _ & ? & ? & _).
    by apply cached_frame.
Qed.
End Cache.

Section Outcome.
Context (lib : Library).

(** X2.  Constructed with neither a channel nor a mutual-TLS endpoint, the
    instance holds no channel and none has been asked for.  As long as it
    holds none, a read of [grpc_channel] asks the library for a channel to
    the host and with the credentials the base constructor saved, and with
    nothing else: no credentials file, the default [AUTH_SCOPES], no quota
    project and no SSL credentials, whatever was passed to the
    constructor.  The read returns the library's channel and stores it, or
    fails with the library's error. *)
Theorem lazy_channel_request a w st1 xs :
  construct lib a w = (inr (), st1) →
  arg_channel a = None →
  truthy_str (arg_api_mtls_endpoint a) = false →
  let st2 := run lib xs st1 in
  let host := base_host lib (default DEFAULT_HOST (arg_host a)) in
  let request :=
    call_create_channel host
      (base_credentials lib (arg_credentials a) (arg_credentials_file a))
      None (AUTH_SCOPES lib) None None in
  _grpc_channel (self st1) = None ∧
  channel_hosts (trace (world st1)) = channel_hosts (trace w) ∧
  (_grpc_channel (self st2) = None →
   grpc_channel lib st2 =
   match lib_error lib (trace (world st2)) request with
   | Some code =>
       (inl (LibraryError code),
        {| self := self st2; world := push_call request (world st2) |})
   | None =>
       let ch := Created (channels_created w) host None in
       (inr ch,
        {| self := assign_grpc_channel ch (self st2);
           world := count_channel (push_call request (world st2)) |})
   end).
Proof.
  intros Hc Hch Hep st2 host request.
  assert (HL1 : Live a w st1) by by apply (construct_live lib).
  assert (HL : Live a w st2) by by apply run_live.
  assert (Hst1 : st1 = built lib a (default DEFAULT_HOST (arg_host a))
                         (arg_credentials a) new_object w).
  { rewrite (construct_plain lib a w) in Hc by done.
    unfold base_outcome in Hc.
    destruct (duplicate_credential_args _ _); [done|].
    destruct (lib_error _ _ _); [done|]. by injection Hc. }
  split_and!.
  - by rewrite Hst1.
  - by rewrite Hst1.
  - intros Hg.
    destruct (run_base lib a w xs st1 HL1) as [Hh Hcr]. fold st2 in Hh, Hcr.
    rewrite Hst1 in Hh, Hcr. simpl in Hh, Hcr.
    rewrite (grpc_channel_lazy lib st2 _ _ Hg Hh Hcr).
    pose proof (live_channel _ _ _ HL) as Hok. unfold channel_ok in Hok.
    rewrite Hg in Hok. destruct Hok as [_ ->]. done.
Qed.

(** X12.  Constructed with a pre-built channel, the instance never asks
    the library for a channel, at construction or in any later read; no
    stub property read ever fails, and every stub is on the supplied
    channel. *)
Theorem supplied_channel_serves_every_stub a w st1 ch xs :
  construct lib a w = (inr (), st1) →
  arg_channel a = Some ch →
  let st2 := run lib xs st1 in
  channel_hosts (trace (world st2)) = channel_hosts (trace w) ∧
  grpc_channel lib st2 = (inr ch, st2) ∧
  ∀ m, ∃ s st3, stub_of lib m st2 = (inr s, st3) ∧ stub_channel s = ch.
Proof.
  intros Hc Hch st2.
  assert (HL1 : Live a w st1) by by apply (construct_live lib).
  assert (HL : Live a w st2) by by apply run_live.
  assert (Hst1 : st1 = built lib a (default DEFAULT_HOST (arg_host a))
                         cred_False (assign_grpc_channel ch new_object) w).
  { rewrite (construct_supplied lib a w ch) in Hc by done.
    unfold base_outcome in Hc. simpl in Hc.
    destruct (lib_error _ _ _); [done|]. by injection Hc. }
  assert (Hg1 : _grpc_channel (self st1) = Some ch) by by rewrite Hst1.
  assert (Hg : _grpc_channel (self st2) = Some ch) by by eapply run_channel.
  split_and!.
  - unfold st2. rewrite (run_channel_hosts lib a w xs st1 ch) by done.
    by rewrite Hst1.
  - by apply grpc_channel_stored.
  - intros m. by apply (stub_of_with_channel lib a w).
Qed.

Lemma grpc_channel_succeeds a w st :
  (∀ t c, lib_error lib t c = None) → Live a w st →
  ∃ ch st', grpc_channel lib st = (inr ch, st').
Proof.
  intros Hlib [[h Hh] [c Hcr] _ _ _].
  destruct (_grpc_channel (self st)) as [ch|] eqn:Hg.
  - rewrite (grpc_channel_stored _ _ ch) by done. eauto.
  - rewrite (grpc_channel_lazy _ _ h c) by done. rewrite Hlib. eauto.
Qed.

(** X8.  When the library raises nothing of its own, construction
    succeeds if a channel is supplied or if credentials and credentials
    file are not both passed, and fails if neither holds; after a
    successful construction every property read succeeds. *)
Theorem construction_and_reads_succeed a w :
  (∀ t c, lib_error lib t c = None) →
  let r := construct lib a w in
  (r.1 = inr () ↔
   is_Some (arg_channel a) ∨
   duplicate_credential_args (arg_credentials a) (arg_credentials_file a)
     = false) ∧
  (r.1 = inr () →
   ∀ xs, let st2 := run lib xs r.2 in
     (∃ ch st3, grpc_channel lib st2 = (inr ch, st3)) ∧
     (∀ m, ∃ s st3, stub_of lib m st2 = (inr s, st3))).
Proof.
  intros Hlib r. split.
  - subst r. destruct (arg_channel a) as [ch|] eqn:Hch.
    + rewrite (construct_supplied lib a w ch) by done. unfold base_outcome.
      simpl. rewrite Hlib. split; eauto.
    + destruct (truthy_str (arg_api_mtls_endpoint a)) eqn:Hep.
      * apply truthy_str_Some in Hep as (ep & Hep & Hne).
        rewrite (construct_mtls lib a w ep) by done. cbn zeta.
        unfold base_outcome.
        replace (ssl_step_failure lib (arg_client_cert_source a) w)
          with (@None (nat * list Call))
          by (destruct (arg_client_cert_source a); simpl;
              by rewrite ?Hlib).
        destruct (duplicate_credential_args _ _); simpl.
        -- split; [done|]. by intros [[]|].
        -- rewrite !Hlib. simpl. split; eauto.
      * rewrite (construct_plain lib a w) by done. unfold base_outcome.
        destruct (duplicate_credential_args _ _); simpl.
        -- split; [done|]. by intros [[]|].
        -- rewrite !Hlib. simpl. split; eauto.
  - intros Hok xs st2.
    assert (Hc : construct lib a w = (inr (), r.2)).
    { subst r. destruct (construct lib a w) as [[e|[]] st]; simpl in *; done. }
    assert (HL : Live a w st2)
      by (apply run_live; by apply (construct_live lib)).
    destruct (grpc_channel_succeeds a w st2 Hlib HL) as (ch & st3 & E).
    split; [eauto|].
    intros m. rewrite stub_of_eq.
    pose proof HL as [_ _ _ (addr & d & Hs & _ & Hd & _) _].
    destruct (d !! method_key m) as [s|] eqn:Hk.
    + rewrite (stub_property_hit _ _ _ _ _ _ d s);
        [eauto|by unfold stubs_dict; rewrite Hs|done].
    + rewrite (stub_property_miss _ _ _ _ _ _ addr d) by done.
      rewrite E. cbn zeta. eauto.
Qed.

(** X7.  A constructor call that fails returns the error of the last
    outside call it made, unchanged: the error is either the
    duplicate-argument error for credentials passed with a credentials
    file (never when a channel is supplied), raised by a call given both,
    or the error that call raised by itself.  The failed constructor
    makes no further call and binds no stub cache; if the call that
    failed is not the base constructor's, the base constructor is not
    called, no channel was created and [_grpc_channel] is unset; and if
    it is a call of the SSL step, no channel was asked for either. *)
Theorem constructor_error_is_last_call a w e st :
  construct lib a w = (inl e, st) →
  _stubs (self st) = None ∧ heap (world st) = heap w ∧
  ∃ c t, trace (world st) = c :: t ∧
    ((e = DuplicateCredentialArgs ∧ arg_channel a = None ∧
      ∃ id f, call_credentials c = Some (cred_Object id, Some f)) ∨
     (∃ code, e = LibraryError code ∧ lib_error lib t c = Some code)) ∧
    (is_base_call c = false →
     base_hosts (trace (world st)) = base_hosts (trace w) ∧
     channels_created (world st) = channels_created w ∧
     _grpc_channel (self st) = None) ∧
    (takes_credentials c = false →
     channel_hosts (trace (world st)) = channel_hosts (trace w)).
Proof.
  assert (Hdup : ∀ cr f, duplicate_credential_args cr f = true →
            ∃ id f', cr = cred_Object id ∧ f = Some f').
  { intros [| |id] [f'|]; try done. eauto. }
  destruct (arg_channel a) as [ch|] eqn:Hch.
  - rewrite (construct_supplied lib a w ch) by done. unfold base_outcome.
    simpl. destruct (lib_error _ _ _) as [code|] eqn:He; [|done].
    intros [= <- <-]. split_and!; try done.
    eexists _, _. split_and!; [done| |done..]. right. eauto.
  - destruct (truthy_str (arg_api_mtls_endpoint a)) eqn:Hep.
    + apply truthy_str_Some in Hep as (ep & Hep & Hne).
      rewrite (construct_mtls lib a w ep) by done. cbn zeta.
      unfold base_outcome.
      destruct (ssl_step_failure lib (arg_client_cert_source a) w)
        as [[code made]|] eqn:Hssl.
      { intros [= <- <-]. split_and!; [done..|].
        apply ssl_step_failure_made in Hssl
          as (Herr & Hmade & Hnc & Hnbh & _).
        assert (Hb : base_hosts (made ++ trace w) = base_hosts (trace w))
          by by rewrite base_hosts_app, Hnbh.
        assert (Hc : channel_hosts (made ++ trace w)
                     = channel_hosts (trace w))
          by by rewrite channel_hosts_app, Hnc.
        destruct made as [|c made]; [done|]. simpl in Herr.
        exists c, (made ++ trace w). split_and!; [done|right; eauto|..].
        - intros _. by split_and!.
        - by intros _. }
      destruct (duplicate_credential_args _ _) eqn:Hd;
        [|destruct (lib_error lib _ (mtls_call lib a ep)) eqn:He1;
          [|destruct (lib_error lib _ (base_call lib a _ _)) eqn:He2]];
        intros [= <- <-]; (split_and!; [done|done|]).
      * destruct (Hdup _ _ Hd) as (id & f & Hcr & Hf).
        eexists _, _. split_and!; [done|..].
        -- left. split_and!; [done|done|]. exists id, f. simpl.
           by rewrite Hcr, Hf.
        -- intros _. simpl. by destruct (arg_client_cert_source a).
        -- done.
      * eexists _, _. split_and!; [done|..].
        -- right. eauto.
        -- intros _. simpl. by destruct (arg_client_cert_source a).
        -- done.
      * eexists _, _. split_and!; [done| |done..]. right. eauto.
    + rewrite (construct_plain lib a w) by done. unfold base_outcome.
      destruct (duplicate_credential_args _ _) eqn:Hd;
        [|destruct (lib_error _ _ _) eqn:He; [|done]];
        intros [= <- <-]; (split_and!; [done|done|]).
      * destruct (Hdup _ _ Hd) as (id & f & Hcr & Hf).
        eexists _, _. split_and!; [done| |done..].
        left. split_and!; [done|done|]. exists id, f. simpl.
        by rewrite Hcr, Hf.
      * eexists _, _. split_and!; [done| |done..]. right. eauto.
Qed.

(** What a stub read returns is what the dictionary holds under the
    key afterwards, in any state. *)
Lemma stub_property_returns_cached key route rq rs st s st' :
  stub_property lib key route rq rs st = (inr s, st') →
  cached st' key = Some s.
Proof.
  unfold stub_property, bind at 1.
  destruct (load_stubs st) as [[e|d] st0]; [done|].
  unfold bind at 1.
  match goal with |- context [match ?m st0 with _ => _ end] =>
    destruct (m st0) as [[e|[]] st2] end; [done|].
  unfold bind, load_stubs, cached.
  destruct (stubs_dict st2) as [d2|] eqn:Hd2; [|intros [=]]. simpl.
  destruct (d2 !! key) as [s'|] eqn:Hk; [|intros [=]].
  intros [= <- <-]. by rewrite Hd2.
Qed.

(** X9.  The class-level dictionary is one object: an object whose
    [_stubs] attribute was never bound (its [__init__] did not reach line
    189) caches its stubs there, where every other such object finds
    them without creating anything; an instance constructed afterwards
    does not see them. *)
Theorem class_level_dictionary_shared o1 o2 w m s st' :
  _stubs o1 = None →
  stub_of lib m {| self := o1; world := w |} = (inr s, st') →
  cls_stubs (world st') !! method_key m = Some s ∧
  (_stubs o2 = None →
   stub_of lib m {| self := o2; world := world st' |}
   = (inr s, {| self := o2; world := world st' |})) ∧
  (∀ a2 st2,
     construct lib a2 (world st') = (inr (), st2) →
     cached st2 (method_key m) = None ∧
     cls_stubs (world st2) !! method_key m = Some s).
Proof.
  intros Ho1 E. rewrite stub_of_eq in E.
  pose proof (stub_property_returns_cached _ _ _ _ _ _ _ E) as Hc.
  destruct (stub_property_calls lib _ _ _ _ _ _ _ E) as (Hs & _).
  simpl in Hs. rewrite Ho1 in Hs.
  unfold cached, stubs_dict in Hc. rewrite Hs in Hc. simpl in Hc.
  split_and!; [done|..].
  - intros Ho2. rewrite stub_of_eq.
    apply (stub_property_hit lib _ _ _ _ _ (cls_stubs (world st')) s);
      [|done].
    unfold stubs_dict. simpl. by rewrite Ho2.
  - intros a2 st2 Hc2.
    destruct (construct_fresh lib a2 _ st2 Hc2) as (Hs2 & Hh2 & Hcl2 & _).
    split; [|by rewrite Hcl2].
    unfold cached, stubs_dict. rewrite Hs2, Hh2.
    rewrite lookup_app_r, Nat.sub_diag by done. simpl.
    by rewrite lookup_empty.
Qed.
End Outcome.

(** ** The further properties at sample values *)

Lemma failed_read_changes_nothing_witness :
  let st1 := (construct failing_library no_args empty_world).2 in
  construct failing_library no_args empty_world = (inr (), st1) ∧
  (grpc_channel failing_library st1).1 = inl (LibraryError 14) ∧
  self (grpc_channel failing_library st1).2 = self st1.
Proof.
  split; [reflexivity|]. split; [reflexivity|].
  destruct (failed_read_changes_nothing failing_library no_args empty_world
              _ [] eq_refl) as (H & _).
  destruct (H (LibraryError 14) _ eq_refl) as (_ & _ & Hself & _).
  exact Hself.
Defined.

Lemma reads_succeed_once_channel_stored_witness :
  let st1 := (construct failing_library channel_args empty_world).2 in
  construct failing_library channel_args empty_world = (inr (), st1) ∧
  _grpc_channel (self st1) = Some (Supplied 7) ∧
  ∃ s st4,
    stub_of failing_library SignBlob
      (run failing_library [read_stub SignJwt] st1) = (inr s, st4) ∧
    stub_channel s = Supplied 7.
Proof.
  split; [reflexivity|]. split; [reflexivity|].
  destruct (reads_succeed_once_channel_stored failing_library channel_args
              empty_world _ [] (Supplied 7) eq_refl eq_refl
              [read_stub SignJwt]) as (_ & H).
  exact (H SignBlob).
Defined.

Lemma stubs_share_the_channel_witness :
  let st1 := (construct sample_library no_args empty_world).2 in
  let r1 := stub_of sample_library SignBlob st1 in
  let r2 := stub_of sample_library SignJwt r1.2 in
  construct sample_library no_args empty_world = (inr (), st1) ∧
  ∃ s1 s2,
    r1 = (inr s1, r1.2) ∧ r2 = (inr s2, r2.2) ∧
    stub_channel s1 = stub_channel s2 ∧ s1 ≠ s2.
Proof.
  split; [reflexivity|]. eexists _, _.
  split; [reflexivity|]. split; [reflexivity|].
  destruct (stubs_share_the_channel sample_library no_args empty_world _
              [] [] SignBlob SignJwt _ _ _ _ eq_refl eq_refl eq_refl)
    as (Hch & _ & Hiff).
  split; [exact Hch|]. intros Heq. apply Hiff in Heq. discriminate Heq.
Defined.

Lemma cache_holds_only_method_keys_witness :
  let st1 := (construct sample_library no_args empty_world).2 in
  construct sample_library no_args empty_world = (inr (), st1) ∧
  ∀ k s,
    cached (run sample_library [read_stub SignBlob; read_stub SignJwt] st1) k
      = Some s →
    ∃ m, k = method_key m ∧ stub_route s = method_route m.
Proof.
  split; [reflexivity|].
  destruct (cache_holds_only_method_keys sample_library no_args empty_world
              _ [read_stub SignBlob; read_stub SignJwt] eq_refl) as (H & _).
  exact H.
Defined.

Lemma lazy_channel_request_witness :
  let st1 := (construct sample_library no_args empty_world).2 in
  construct sample_library no_args empty_world = (inr (), st1) ∧
  arg_channel no_args = None ∧
  truthy_str (arg_api_mtls_endpoint no_args) = false ∧
  _grpc_channel (self st1) = None ∧
  channel_hosts (trace (world st1)) = [].
Proof.
  do 3 (split; [reflexivity|]).
  destruct (lazy_channel_request sample_library no_args empty_world _ []
              eq_refl eq_refl eq_refl) as (H1 & H2 & _).
  split; [exact H1|exact H2].
Defined.

Lemma supplied_channel_serves_every_stub_witness :
  let st1 := (construct failing_library channel_args empty_world).2 in
  construct failing_library channel_args empty_world = (inr (), st1) ∧
  arg_channel channel_args = Some (Supplied 7) ∧
  channel_hosts
    (trace (world (run failing_library
                     [read_stub SignBlob; read_grpc_channel] st1))) = [].
Proof.
  do 2 (split; [reflexivity|]).
  destruct (supplied_channel_serves_every_stub failing_library channel_args
              empty_world _ (Supplied 7)
              [read_stub SignBlob; read_grpc_channel] eq_refl eq_refl)
    as (H & _).
  exact H.
Defined.

Lemma construction_and_reads_succeed_witness :
  (∀ t c, lib_error sample_library t c = None) ∧
  ((construct sample_library duplicate_args empty_world).1 = inr () ↔
   is_Some (arg_channel duplicate_args) ∨
   duplicate_credential_args (arg_credentials duplicate_args)
     (arg_credentials_file duplicate_args) = false).
Proof.
  split; [intros t c; reflexivity|].
  destruct (construction_and_reads_succeed sample_library duplicate_args
              empty_world (λ t c, eq_refl)) as (H & _).
  exact H.
Defined.

Lemma constructor_error_is_last_call_witness :
  let r := construct ssl_failing_library mtls_args empty_world in
  r = (inl (LibraryError 2), r.2) ∧
  base_hosts (trace (world r.2)) = [] ∧
  channel_hosts (trace (world r.2)) = [] ∧
  _stubs (self r.2) = None.
Proof.
  split; [reflexivity|].
  destruct (constructor_error_is_last_call ssl_failing_library mtls_args
              empty_world (LibraryError 2) _ eq_refl)
    as (Hs & _ & c & t & Ht & _ & Hbase & Hchan).
  injection Ht as <- <-.
  destruct (Hbase eq_refl) as (Hb & _).
  split; [exact Hb|]. split; [exact (Hchan eq_refl)|exact Hs].
Defined.

Lemma class_level_dictionary_shared_witness :
  let r := stub_of sample_library SignBlob
             {| self := half_built; world := empty_world |} in
  _stubs half_built = None ∧
  ∃ s, r = (inr s, r.2) ∧
       cls_stubs (world r.2) !! "sign_blob" = Some s.
Proof.
  split; [reflexivity|]. eexists. split; [reflexivity|].
  destruct (class_level_dictionary_shared sample_library half_built
              half_built empty_world SignBlob _ _ eq_refl eq_refl)
    as (H & _).
  exact H.
Defined.
